(** * Flex GPU transformer: scale-aware tensors, scale binding and kernel groups

    A shallow embedding of [ngraph/transformers/flexgputransform.py].

    Python floats are modelled by exact rationals ([Q]): a quotient or a
    product carries no rounding error here, where the program rounds it to a
    double, and non-finite values (inf, nan) are outside the model.  The
    theorems on that model are about comparisons, clipping and integer
    bounds, which the rounding of doubles respects.  The one question whose
    answer turns on the last bit of a quotient and of a product, how far the
    value read back lies from the value written, is treated apart, on a
    model of the write and the read that rounds both to a double (module
    [Double]).  The device storage of a tensor is a flat list of integers.  Mutable Python objects that are shared (the
    flex entries, owned by the flex manager and referenced from buffers and
    from kernel parameter descriptors) live in one store and are referenced
    by their flex id.

    The module under study is glue code around the autoflex package and the
    base GPU transformer, neither of which is part of this development.
    Everything it calls there is collected in the interface [FlexRuntime];
    the theorems hold for every implementation of the interface and name
    the properties of it they depend on. *)

From Stdlib Require Import ZArith QArith Qround Qabs Qpower Lia Lqa List String Bool.
From Stdlib Require Import PrimFloat FloatOps SpecFloat Uint63.
From Stdlib Require Import Ascii Decimal DecimalString DecimalNat.
From stdpp Require Import base option list gmap sorting strings.
Import ListNotations.

Local Open Scope Z_scope.

(** ** Python arithmetic on the model of floats *)

Definition Qltb (x y : Q) : bool := negb (Qle_bool y x).

(** [min(a, b)] and [max(a, b)]: the first argument wins ties. *)
Definition py_min (a b : Q) : Q := if Qltb b a then b else a.
Definition py_max (a b : Q) : Q := if Qltb a b then b else a.

(** [int(x)] on a float: truncation toward zero. *)
Definition py_int (q : Q) : Z := Z.quot (Qnum q) (Z.pos (Qden q)).

(** A value handed to [__setitem__]: a Python scalar ([int] or [float]) or
    an array, flattened. *)
Inductive Value : Type :=
| Scalar (q : Q)
| NdArray (a : list Q).

Definition elems (v : Value) : list Q :=
  match v with
  | Scalar q => [q]
  | NdArray a => a
  end.

(** [np.amax] of a flat array; [None] on a zero-size array, where numpy
    raises [ValueError]. *)
Definition amax (a : list Q) : option Q :=
  match a with
  | [] => None
  | x :: l => Some (fold_left (fun m y => if Qltb m y then y else m) l x)
  end.

(** [np.amax(np.absolute(value))] *)
Definition amax_absolute (v : Value) : option Q :=
  match v with
  | Scalar q => Some (Qabs q)
  | NdArray a => amax (map Qabs a)
  end.

(** ** Exceptions, state and the monad of the model *)

Inductive Exn : Type :=
| NotImplementedError
| ZeroDivisionError
| ValueError
| IndexError
| AttributeError
| FatalError.

(** The flex storage format: [GPUFlex] carries the number of storage bits
    (16 for flex16) and the name of the integer type that stores it. *)
Record GPUFlex : Type := mkGPUFlex {
  storage_bits : positive;
  flex_storage_dtype : string
}.

Inductive Dtype : Type :=
| FlexDtype (f : GPUFlex)
| OtherDtype (name : string).

Record FlexEntry : Type := mkFlexEntry {
  flex_id : nat;
  dtype : GPUFlex;
  scale : Q;
  history : list Z;
  step_index : Z
}.

#[global] Instance FlexEntry_inhabited : Inhabited FlexEntry :=
  populate (mkFlexEntry 0 (mkGPUFlex 16 "int16") 1 [] 0).

Record FlexManager : Type := mkFlexManager {
  fixed_point : bool;
  verbose : bool;
  autoflex_count : Z;
  flex_entries : gmap nat FlexEntry;
  allocated : bool
}.

(** What the program did, in order; a ghost log that the operations of the
    model extend and that nothing reads. *)
Inductive Event : Type :=
| EvEntryBefore (id : nat) (v : Value)
| EvEntryAfter (id : nat) (maxabs : Z) (count : Z)
| EvStore (tensor : nat)
| EvCount
| EvSaveDiagnostic
| EvManageBefore (kernel : nat)
| EvBindFlexScales (kernel : nat)
| EvExecute (kernel : nat)
| EvManageAfter (kernel : nat)
| EvBaseTransform
| EvAllocate.

Record State : Type := mkState {
  flex_manager : FlexManager;
  device : gmap nat (list Z);
  trace : list Event
}.

Inductive Result (A : Type) : Type :=
| Ok (a : A) (st : State)
| Raise (e : Exn) (st : State).
Arguments Ok {A} a st.
Arguments Raise {A} e st.

(** The state in which a computation stopped, normally or not: a Python
    exception does not undo the mutations made before it. *)
Definition final {A} (r : Result A) : State :=
  match r with
  | Ok _ st => st
  | Raise _ st => st
  end.

Definition M (A : Type) : Type := State -> Result A.

#[global] Instance M_ret : MRet M := fun A a st => Ok a st.

#[global] Instance M_bind : MBind M := fun A B f m st =>
  match m st with
  | Ok a st' => f a st'
  | Raise e st' => Raise e st'
  end.

Definition raise {A} (e : Exn) : M A := fun st => Raise e st.

Definition log (e : Event) : M unit :=
  fun st => Ok tt (mkState (flex_manager st) (device st) (trace st ++ [e])).

Definition get_manager : M FlexManager := fun st => Ok (flex_manager st) st.

Definition put_manager (m : FlexManager) : M unit :=
  fun st => Ok tt (mkState m (device st) (trace st)).

Definition get_device : M (gmap nat (list Z)) := fun st => Ok (device st) st.

Definition put_device (d : gmap nat (list Z)) : M unit :=
  fun st => Ok tt (mkState (flex_manager st) d (trace st)).

Definition set_entries (es : gmap nat FlexEntry) (m : FlexManager) : FlexManager :=
  mkFlexManager (fixed_point m) (verbose m) (autoflex_count m) es (allocated m).

Definition set_count (c : Z) (m : FlexManager) : FlexManager :=
  mkFlexManager (fixed_point m) (verbose m) c (flex_entries m) (allocated m).

Definition set_allocated (b : bool) (m : FlexManager) : FlexManager :=
  mkFlexManager (fixed_point m) (verbose m) (autoflex_count m) (flex_entries m) b.

(** Dereference of a flex entry. *)
Definition entry_of (id : nat) (st : State) : FlexEntry :=
  flex_entries (flex_manager st) !!! id.

Definition get_entry (id : nat) : M FlexEntry := fun st => Ok (entry_of id st) st.

Definition put_entry (id : nat) (e : FlexEntry) : M unit :=
  m ← get_manager; put_manager (set_entries (<[id := e]> (flex_entries m)) m).

(** ** Kernels and their parameters *)

(** [FlexScaleDescription]: a kernel argument slot that stands for the scale
    of a flex entry, as an input or as an output of the kernel. *)
Record FlexScaleDescription : Type := mkFlexScaleDescription {
  flex_entry : nat;
  is_output : bool
}.

(** [FlexPtrDescription]: a slot that stands for the device address of the
    statistics of a flex entry. *)
Record FlexPtrDescription : Type := mkFlexPtrDescription {
  ptr_flex_entry : nat
}.

Inductive Param : Type :=
| PFlexScale (d : FlexScaleDescription)
| PFlexPtr (d : FlexPtrDescription)
| PFloat (q : Q)
| POther (z : Z).

Inductive KernelClass : Type :=
| ElementWiseKernel
| DimShuffleKernel
| FlexConvFpropKernel
| FlexConvBpropKernel
| FlexConvUpdateKernel
| FlexFillKernel
| FlexRngFillKernel
| GPUKernel.

#[global] Instance KernelClass_eq_dec : EqDecision KernelClass :=
  ltac:(solve_decision).

(** kernels that do not require flex integration *)
Definition non_flex_kernels : list KernelClass := [DimShuffleKernel].

(** [isinstance(kernel, classes)] *)
Definition isinstance (c : KernelClass) (classes : list KernelClass) : bool :=
  bool_decide (c ∈ classes).

(** A compiled kernel.  [output_flex_ids] and [flex_scale_info] are
    attributes that an object may lack: [None] is the absent attribute. *)
Record Kernel : Type := mkKernel {
  kernel_class : KernelClass;
  params : list Param;
  output_flex_ids : option (list nat);
  flex_scale_info : option (list (nat * FlexScaleDescription))
}.

Definition set_params (ps : list Param) (k : Kernel) : Kernel :=
  mkKernel (kernel_class k) ps (output_flex_ids k) (flex_scale_info k).

Definition set_output_flex_ids (ids : list nat) (k : Kernel) : Kernel :=
  mkKernel (kernel_class k) (params k) (Some ids) (flex_scale_info k).

Definition set_flex_scale_info (info : list (nat * FlexScaleDescription)) (k : Kernel) : Kernel :=
  mkKernel (kernel_class k) (params k) (output_flex_ids k) (Some info).

Record FlexGPUKernelGroup : Type := mkFlexGPUKernelGroup {
  group_name : string;
  kernels : list Kernel;
  group_output_flex_ids : option (list nat)
}.

(** ** Tensors and buffers *)

Record FlexGPUDeviceBufferStorage : Type := mkFlexGPUDeviceBufferStorage {
  buffer_name : string;
  buffer_flex_entry : nat
}.

(** A device tensor: a view of a buffer, with the address of its elements in
    device memory. *)
Record FlexGPUDeviceTensor : Type := mkFlexGPUDeviceTensor {
  tensor_id : nat;
  device_buffer : FlexGPUDeviceBufferStorage
}.

(** The key of an indexed assignment, interpreted by the base tensor class. *)
Inductive Key : Type :=
| KeyAll
| KeyIndex (i : nat)
| KeySlice (lo hi : nat).

(** ** The transformer *)

Inductive GraphPass : Type :=
| ClearTensorDescriptions
| FlexDtypePass
| FlexDECPass.

Record FlexGPUTransformer : Type := mkFlexGPUTransformer {
  transformer_fixed_point : bool;
  graph_passes : list GraphPass
}.

(** ** What the module calls and does not define

    The methods of the autoflex package ([GPUFlexManager], its flex
    entries, [FlexPtrDescription]) and of the base classes ([GPUDeviceTensor],
    [GPUKernelGroup], [GPUTransformer], the kernels) that the module calls. *)
Class FlexRuntime : Type := {
  (** [FlexEntry.manage_before_computation(value)] *)
  entry_manage_before_computation : Value -> FlexEntry -> FlexEntry;
  (** [FlexEntry.manage_after_computation(maxabs, autoflex_count)] *)
  entry_manage_after_computation : Z -> Z -> FlexEntry -> FlexEntry;
  (** [GPUDeviceTensor.__setitem__(key, value)]: the new elements of the
      tensor, [None] when the base class rejects the assignment *)
  base_setitem : Key -> Value -> list Z -> option (list Z);
  (** [FlexPtrDescription.bind_ptr(params)] *)
  bind_ptr : list Param -> list Param;
  (** [bind_flex_scales] of the kernels that define it themselves *)
  kernel_bind_flex_scales : Kernel -> gmap nat FlexEntry -> Kernel;
  (** [kernel.execute()] *)
  kernel_execute : Kernel -> gmap nat (list Z) -> gmap nat (list Z);
  (** [GPUFlexManager.manage_before_computation(kernel)] *)
  manager_manage_before_computation : Kernel -> FlexManager -> FlexManager;
  (** [GPUFlexManager.manage_after_computation(kernel)], which reads the
      magnitudes the kernel left on the device *)
  manager_manage_after_computation :
    Kernel -> gmap nat (list Z) -> FlexManager -> FlexManager;
  (** [GPUFlexManager.save_diagnostic_data()] *)
  save_diagnostic_data : FlexManager -> FlexManager;
  (** [GPUKernelGroup.compile_all()] *)
  base_compile_all : list Kernel -> list Kernel;
  (** [GPUTransformer.transform_ordered_ops(ordered_ops, name)] *)
  base_transform_ordered_ops : list string -> string -> M string
}.

Section Model.
Context {RT : FlexRuntime}.

(** ** FlexGPUDeviceTensor *)

(** [self.flex_entry]: the entry of the buffer the tensor views. *)
Definition tensor_flex_entry (t : FlexGPUDeviceTensor) : nat :=
  buffer_flex_entry (device_buffer t).

(** [self.scale] *)
Definition tensor_scale (t : FlexGPUDeviceTensor) : M Q :=
  e ← get_entry (tensor_flex_entry t); mret (scale e).

(** [GPUDeviceTensor.get]: the stored integers, copied to the host. *)
Definition base_get (t : FlexGPUDeviceTensor) : M (list Z) :=
  fun st => Ok (device st !!! tensor_id t) st.

(** [FlexGPUDeviceTensor.get].  The product of a stored integer and the
    scale is exact here; the program rounds it to a double. *)
Definition get (t : FlexGPUDeviceTensor) : M (list Q) :=
  tensor ← base_get t;
  s ← tensor_scale t;
  mret (map (fun z => inject_Z z * s)%Q tensor).

(** [value / self.scale].  The quotient is exact here; the program rounds
    it to a double.  Division by a zero scale raises for a Python scalar;
    for an array numpy yields non-finite values and the write goes on, which
    the model does not represent: it stops there as well. *)
Definition divide_by_scale (value : Value) (s : Q) : M Value :=
  if Qeq_bool s 0 then raise ZeroDivisionError
  else match value with
       | Scalar q => mret (Scalar (q / s)%Q)
       | NdArray a => mret (NdArray (map (fun q => q / s)%Q a))
       end.

(** check for overflow and clip *)
Definition clip (maxval minval : Z) (value : Value) : Value :=
  match value with
  | Scalar q =>
      Scalar (if Qle_bool 0 q then py_min q (inject_Z maxval)
              else py_max q (inject_Z minval))
  | NdArray a =>
      let a1 := map (fun q => if Qltb (inject_Z maxval) q then inject_Z maxval else q) a in
      NdArray (map (fun q => if Qltb q (inject_Z minval) then inject_Z minval else q) a1)
  end.

(** [super().__setitem__(key, value)] *)
Definition store (t : FlexGPUDeviceTensor) (key : Key) (value : Value) : M unit :=
  fun st =>
    match base_setitem key value (device st !!! tensor_id t) with
    | Some new =>
        Ok tt (mkState (flex_manager st) (<[tensor_id t := new]> (device st))
                       (trace st ++ [EvStore (tensor_id t)]))
    | None => Raise ValueError st
    end.

(** [int(np.amax(np.absolute(value)))] *)
Definition maxabs_of (value : Value) : M Z :=
  match amax_absolute value with
  | Some m => mret (py_int m)
  | None => raise ValueError
  end.

(** [FlexGPUDeviceTensor.__setitem__] *)
Definition setitem (t : FlexGPUDeviceTensor) (key : Key) (value : Value) : M unit :=
  let id := tensor_flex_entry t in
  (* flex management *)
  e ← get_entry id;
  log (EvEntryBefore id value);;
  put_entry id (entry_manage_before_computation value e);;
  (* store integer representation *)
  s ← tensor_scale t;
  value ← divide_by_scale value s;
  (* check for overflow and clip *)
  e ← get_entry id;
  let bits := Z.pos (storage_bits (dtype e)) - 1 in
  let maxval := 2 ^ bits - 1 in
  let minval := - 2 ^ bits in
  let value := clip maxval minval value in
  (* set modified values *)
  store t key value;;
  (* flex management *)
  maxabs ← maxabs_of value;
  m ← get_manager;
  e ← get_entry id;
  log (EvEntryAfter id maxabs (autoflex_count m));;
  put_entry id (entry_manage_after_computation maxabs (autoflex_count m) e).


(** ** Scale binding of element-wise kernels *)

(** The loop of [_ew_bind_flex_scales]: every recorded slot is overwritten
    with the current scale of its entry, or with its reciprocal for an
    output.  The parameter list of the kernel is passed along. *)
Fixpoint bind_scales (info : list (nat * FlexScaleDescription)) (ps : list Param)
  : M (list Param) :=
  match info with
  | [] => mret ps
  | (index, flex_scale_desc) :: rest =>
      e ← get_entry (flex_entry flex_scale_desc);
      s ← (if is_output flex_scale_desc
            then (if Qeq_bool (scale e) 0 then raise ZeroDivisionError
                  else mret (1 / scale e)%Q)
            else mret (scale e));
      if bool_decide (index < length ps)%nat
      then bind_scales rest (<[index := PFloat s]> ps)
      else raise IndexError
  end.

(** [_ew_bind_flex_scales] *)
Definition _ew_bind_flex_scales (kernel : Kernel) : M Kernel :=
  match flex_scale_info kernel with
  | None => raise AttributeError
  | Some info =>
      ps ← bind_scales info (params kernel);
      mret (set_params (bind_ptr ps) kernel)
  end.

(** [kernel.bind_flex_scales()]: the method attached to
    [ElementWiseKernel], or the kernel's own. *)
Definition bind_flex_scales (kernel : Kernel) : M Kernel :=
  if isinstance (kernel_class kernel) [ElementWiseKernel]
  then _ew_bind_flex_scales kernel
  else m ← get_manager; mret (kernel_bind_flex_scales kernel (flex_entries m)).

(** ** FlexGPUKernelGroup: compilation *)

(** The inner loop of [_create_output_flex_ids] over the parameters of an
    element-wise kernel. *)
Fixpoint ew_output_ids (ps : list Param) (st : State) : list nat :=
  match ps with
  | [] => []
  | p :: rest =>
      match p with
      | PFlexScale d =>
          if is_output d
          then flex_id (entry_of (flex_entry d) st) :: ew_output_ids rest st
          else ew_output_ids rest st
      | _ => ew_output_ids rest st
      end
  end.

(** One turn of the loop of [_create_output_flex_ids]: the kernel with its
    [output_flex_ids] in place. *)
Definition with_output_flex_ids (kernel : Kernel) (st : State) : Kernel :=
  if isinstance (kernel_class kernel) [ElementWiseKernel]
  then set_output_flex_ids (ew_output_ids (params kernel) st) kernel
  else if isinstance (kernel_class kernel) non_flex_kernels
       then set_output_flex_ids [] kernel
       else kernel.

Fixpoint create_output_flex_ids_loop (ks : list Kernel) (group_output_ids : list nat)
  : M (list Kernel * list nat) :=
  match ks with
  | [] => mret ([], group_output_ids)
  | kernel :: rest =>
      kernel ← ((fun st => Ok (with_output_flex_ids kernel st) st) : M Kernel);
      match output_flex_ids kernel with
      | None => raise AttributeError
      | Some ids =>
          r ← create_output_flex_ids_loop rest (group_output_ids ++ ids);
          mret (kernel :: r.1, r.2)
      end
  end.

(** [_create_output_flex_ids] *)
Definition _create_output_flex_ids (g : FlexGPUKernelGroup) : M FlexGPUKernelGroup :=
  r ← create_output_flex_ids_loop (kernels g) [];
  mret (mkFlexGPUKernelGroup (group_name g) r.1 (Some r.2)).

(** [[(i, p) for i, p in enumerate(kernel.params)
      if isinstance(p, FlexScaleDescription)]] *)
Fixpoint scale_info_from (i : nat) (ps : list Param) : list (nat * FlexScaleDescription) :=
  match ps with
  | [] => []
  | PFlexScale d :: rest => (i, d) :: scale_info_from (S i) rest
  | _ :: rest => scale_info_from (S i) rest
  end.

(** [_create_ew_flex_scale_info] *)
Definition _create_ew_flex_scale_info (g : FlexGPUKernelGroup) : FlexGPUKernelGroup :=
  mkFlexGPUKernelGroup (group_name g)
    (map (fun kernel =>
            if isinstance (kernel_class kernel) [ElementWiseKernel]
            then set_flex_scale_info (scale_info_from 0 (params kernel)) kernel
            else kernel) (kernels g))
    (group_output_flex_ids g).

(** [compile_all] *)
Definition compile_all (g : FlexGPUKernelGroup) : M FlexGPUKernelGroup :=
  let g := mkFlexGPUKernelGroup (group_name g) (base_compile_all (kernels g))
                                (group_output_flex_ids g) in
  g ← _create_output_flex_ids g;
  mret (_create_ew_flex_scale_info g).

(** ** FlexGPUKernelGroup: execution *)

(** Modelled from the spec: the flex manager's
    [manage_before_computation(kernel)] and [manage_after_computation(kernel)]
    are execution entry points, and calling one before [allocate()] is a
    fatal programming error.  What they do to the manager once allocated is
    the runtime's. *)
Definition manage_before_computation (i : nat) (kernel : Kernel) : M unit :=
  log (EvManageBefore i);;
  m ← get_manager;
  if allocated m
  then put_manager (manager_manage_before_computation kernel m)
  else raise FatalError.

Definition manage_after_computation (i : nat) (kernel : Kernel) : M unit :=
  log (EvManageAfter i);;
  m ← get_manager;
  d ← get_device;
  if allocated m
  then put_manager (manager_manage_after_computation kernel d m)
  else raise FatalError.

(** [setup_kernel_execute]; [i] is the position of the kernel in its group. *)
Definition setup_kernel_execute (i : nat) (kernel : Kernel) : M Kernel :=
  (* flex management *)
  manage_before_computation i kernel;;
  (* bind flex scale kernel parameters *)
  log (EvBindFlexScales i);;
  bind_flex_scales kernel.

(** [after_kernel_execute] *)
Definition after_kernel_execute (i : nat) (kernel : Kernel) : M unit :=
  manage_after_computation i kernel.

Definition execute (i : nat) (kernel : Kernel) : M unit :=
  log (EvExecute i);;
  d ← get_device;
  put_device (kernel_execute kernel d).

(** Modelled from the spec: [GPUKernelGroup.__call__], the loop of the base
    class over the kernels of the group, in compiled order: for each kernel
    the setup hook, the execution of the kernel, the hook after it. *)
Definition run_kernel (i : nat) (k : Kernel) : M Kernel :=
  k ← setup_kernel_execute i k;
  execute i k;;
  after_kernel_execute i k;;
  mret k.

Fixpoint base_call (i : nat) (ks : list Kernel) : M (list Kernel) :=
  match ks with
  | [] => mret []
  | k :: rest =>
      k ← run_kernel i k;
      rest ← base_call (S i) rest;
      mret (k :: rest)
  end.

(** [self.transformer.flex_manager.autoflex_count += 1] *)
Definition increment_autoflex_count : M unit :=
  m ← get_manager;
  put_manager (set_count (autoflex_count m + 1) m);;
  log EvCount.

(** [FlexGPUKernelGroup.__call__] *)
Definition call (g : FlexGPUKernelGroup) : M FlexGPUKernelGroup :=
  increment_autoflex_count;;
  increment_autoflex_count;;
  log EvSaveDiagnostic;;
  m ← get_manager;
  put_manager (save_diagnostic_data m);;
  ks ← base_call 0 (kernels g);
  mret (mkFlexGPUKernelGroup (group_name g) ks (group_output_flex_ids g)).

(** ** FlexGPUTransformer *)

(** [FlexGPUTransformer.__init__].
    Modelled from the spec: the constructor of [GPUFlexManager] makes a
    manager with an empty registry, no adaptation cycle performed and no
    device-side storage allocated. *)
Definition __init__ (fixed_point flex_verbose : bool) : M FlexGPUTransformer :=
  put_manager (mkFlexManager fixed_point flex_verbose 0 ∅ false);;
  mret (mkFlexGPUTransformer fixed_point [ClearTensorDescriptions; FlexDtypePass]).

(** [storage_dtype] *)
Definition storage_dtype (dtype : Dtype) : M string :=
  match dtype with
  | FlexDtype f => mret (flex_storage_dtype f)
  | OtherDtype _ => raise NotImplementedError
  end.

(** Modelled from the spec: [GPUFlexManager.allocate()] finalizes the
    device-side storage of the scales; a second call is a fatal error. *)
Definition allocate : M unit :=
  log EvAllocate;;
  m ← get_manager;
  if allocated m then raise FatalError
  else put_manager (set_allocated true m).

(** [transform_ordered_ops] *)
Definition transform_ordered_ops (ordered_ops : list string) (name : string) : M string :=
  ret_val ← base_transform_ordered_ops ordered_ops name;
  (* device memory allocation after drv init *)
  allocate;;
  mret ret_val.

End Model.

(** ** A reference runtime

    One implementation of the interface, to run the model on concrete
    inputs.  It is parameterised by the conversion to the integer storage
    type that its base tensor class applies. *)

(** Round to the nearest integer, halves upward. *)
Definition to_nearest (q : Q) : Z := Qfloor (q + (1 # 2))%Q.

(** Modelled from the spec: [manage_after_computation] of a flex entry
    records the observed magnitude into the history and advances the step
    index; the scale is left to the next adaptation cycle. *)
Definition reference_entry_after (maxabs count : Z) (e : FlexEntry) : FlexEntry :=
  mkFlexEntry (flex_id e) (dtype e) (scale e) (maxabs :: history e) count.

(** Assignment to the whole tensor or to one element of it. *)
Definition reference_setitem (conv : Q -> Z) (key : Key) (value : Value) (old : list Z)
  : option (list Z) :=
  match key, value with
  | KeyAll, Scalar q => Some (map (fun _ => conv q) old)
  | KeyAll, NdArray a =>
      if bool_decide (length a = length old) then Some (map conv a) else None
  | KeyIndex i, Scalar q =>
      if bool_decide (i < length old)%nat then Some (<[i := conv q]> old) else None
  | _, _ => None
  end.

Definition reference_bind_ptr (ps : list Param) : list Param :=
  map (fun p => match p with
                | PFlexPtr d => POther (Z.of_nat (ptr_flex_entry d))
                | _ => p
                end) ps.

Definition reference_runtime_with (conv : Q -> Z) : FlexRuntime := {|
  entry_manage_before_computation := fun _ e => e;
  entry_manage_after_computation := reference_entry_after;
  base_setitem := reference_setitem conv;
  bind_ptr := reference_bind_ptr;
  kernel_bind_flex_scales := fun k _ => k;
  kernel_execute := fun _ d => d;
  manager_manage_before_computation := fun _ m => m;
  manager_manage_after_computation := fun _ _ m => m;
  save_diagnostic_data := fun m => m;
  base_compile_all := fun ks => ks;
  base_transform_ordered_ops := fun _ name => log EvBaseTransform;; mret name
|}.

Definition reference_runtime : FlexRuntime := reference_runtime_with to_nearest.

(** ** Sample objects *)

Definition flex16 : GPUFlex := mkGPUFlex 16 "int16".

Definition sample_entry (id : nat) (s : Q) : FlexEntry := mkFlexEntry id flex16 s [] 0.

Definition sample_tensor : FlexGPUDeviceTensor :=
  mkFlexGPUDeviceTensor 0 (mkFlexGPUDeviceBufferStorage "a_x" 0).

(** A manager with the entries of scales [1], [2] and [1/4] under the ids
    0, 1 and 2, and a device holding one tensor of three elements. *)
Definition sample_manager (alloc : bool) : FlexManager :=
  mkFlexManager false false 0
    (<[0%nat := sample_entry 0 1]>
       (<[1%nat := sample_entry 1 2]> (<[2%nat := sample_entry 2 (1 # 4)]> ∅)))
    alloc.

Definition sample_state (alloc : bool) : State :=
  mkState (sample_manager alloc) (<[0%nat := [5; -3; 12]]> ∅) [].

(** An element-wise kernel with an input scale, two output scales and a
    statistics pointer among its parameters, and a data-movement kernel. *)
Definition sample_ew_kernel : Kernel :=
  mkKernel ElementWiseKernel
    [PFlexScale (mkFlexScaleDescription 0 false); POther 7;
     PFlexScale (mkFlexScaleDescription 1 true);
     PFlexPtr (mkFlexPtrDescription 1);
     PFlexScale (mkFlexScaleDescription 2 true)]
    None None.

Definition sample_dimshuffle_kernel : Kernel :=
  mkKernel DimShuffleKernel [POther 3] None None.

Definition sample_group : FlexGPUKernelGroup :=
  mkFlexGPUKernelGroup "group" [sample_ew_kernel; sample_dimshuffle_kernel] None.

(** The sample group after [compile_all]. *)
Definition sample_compiled_group : FlexGPUKernelGroup :=
  match @compile_all reference_runtime sample_group (sample_state true) with
  | Ok g _ => g
  | Raise _ _ => sample_group
  end.

(** ** Vocabulary of the statements *)

(** [bits] of [__setitem__] for an entry: one less than the storage bits. *)
Definition clip_bits (e : FlexEntry) : Z := Z.pos (storage_bits (dtype e)) - 1.


(** The integers a tensor holds on the device. *)
Definition stored (t : FlexGPUDeviceTensor) (st : State) : list Z :=
  device st !!! tensor_id t.

(** The events a computation added to the log. *)
Definition new_events (st st' : State) : list Event :=
  drop (length (trace st)) (trace st').


(** The number [bind_flex_scales] puts in the slot of a descriptor: the
    scale of its entry for an input, the reciprocal for an output. *)
Definition bound_scale (d : FlexScaleDescription) (st : State) : Q :=
  let s := scale (entry_of (flex_entry d) st) in
  if is_output d then (1 / s)%Q else s.

(** The events of the kernels of a group call, the first kernel at
    position [i]. *)
Fixpoint kernel_events (i : nat) (ks : list Kernel) : list Event :=
  match ks with
  | [] => []
  | _ :: rest =>
      [EvManageBefore i; EvBindFlexScales i; EvExecute i; EvManageAfter i]
        ++ kernel_events (S i) rest
  end.

(** The [output_flex_ids] of a kernel, none when it lacks the attribute. *)
Definition kernel_output_ids (k : Kernel) : list nat := default [] (output_flex_ids k).

(** The kernels that are neither element-wise nor exempt bring their own
    [output_flex_ids]. *)
Definition flex_kernels_have_output_ids (ks : list Kernel) : Prop :=
  forall k, In k ks ->
    kernel_class k <> ElementWiseKernel -> kernel_class k <> DimShuffleKernel ->
    output_flex_ids k <> None.

Section RuntimeProperties.
Context (RT : FlexRuntime).


(** The same for a scalar, position by position. *)
Definition store_converts_scalar_to_neighbour : Prop :=
  forall key q old new, base_setitem key (Scalar q) old = Some new ->
  forall (i : nat) z, new !! i = Some z ->
    old !! i = Some z \/ Qfloor q <= z <= Qceiling q.

(** The hooks of a flex entry leave its storage format alone. *)
Definition entry_hooks_keep_dtype : Prop :=
  (forall v e, dtype (entry_manage_before_computation v e) = dtype e) /\
  (forall m c e, dtype (entry_manage_after_computation m c e) = dtype e).

(** The methods of the flex manager that a group call reaches leave the
    cycle counter alone. *)
Definition manager_hooks_keep_count : Prop :=
  (forall k m, autoflex_count (manager_manage_before_computation k m) = autoflex_count m) /\
  (forall k d m, autoflex_count (manager_manage_after_computation k d m) = autoflex_count m) /\
  (forall m, autoflex_count (save_diagnostic_data m) = autoflex_count m).

(** ... and do not undo the allocation. *)
Definition manager_hooks_keep_allocated : Prop :=
  (forall k m, allocated (manager_manage_before_computation k m) = allocated m) /\
  (forall k d m, allocated (manager_manage_after_computation k d m) = allocated m) /\
  (forall m, allocated (save_diagnostic_data m) = allocated m).

(** [bind_ptr] leaves the slots that hold a bound scale alone. *)
Definition bind_ptr_keeps_scales : Prop :=
  forall ps (i : nat) q, ps !! i = Some (PFloat q) -> bind_ptr ps !! i = Some (PFloat q).

End RuntimeProperties.

(** *** The stages of a write *)

Section Stages.
Context {RT : FlexRuntime}.

(** The entry after [manage_before_computation(value)]. *)
Definition entry_before (t : FlexGPUDeviceTensor) (value : Value) (st : State) : FlexEntry :=
  entry_manage_before_computation value (entry_of (tensor_flex_entry t) st).

Definition state_before (t : FlexGPUDeviceTensor) (value : Value) (st : State) : State :=
  mkState (set_entries (<[tensor_flex_entry t := entry_before t value st]>
                          (flex_entries (flex_manager st))) (flex_manager st))
          (device st)
          (trace st ++ [EvEntryBefore (tensor_flex_entry t) value]).

(** The value handed to the base store: divided by the scale, clipped. *)
Definition clipped (t : FlexGPUDeviceTensor) (value : Value) (st : State) : Value :=
  let e := entry_before t value st in
  clip (2 ^ clip_bits e - 1) (- 2 ^ clip_bits e)
       (match value with
        | Scalar q => Scalar (q / scale e)%Q
        | NdArray a => NdArray (map (fun q => q / scale e)%Q a)
        end).

Definition state_stored (t : FlexGPUDeviceTensor) (new : list Z) (st1 : State) : State :=
  mkState (flex_manager st1) (<[tensor_id t := new]> (device st1))
          (trace st1 ++ [EvStore (tensor_id t)]).

Definition state_after (t : FlexGPUDeviceTensor) (maxabs : Z) (st2 : State) : State :=
  let id := tensor_flex_entry t in
  let m := flex_manager st2 in
  mkState (set_entries (<[id := entry_manage_after_computation maxabs (autoflex_count m)
                                  (entry_of id st2)]> (flex_entries m)) m)
          (device st2)
          (trace st2 ++ [EvEntryAfter id maxabs (autoflex_count m)]).

(** The ways a write ends. *)
Inductive setitem_outcome (t : FlexGPUDeviceTensor) (key : Key) (value : Value) (st : State)
  : Result unit -> Prop :=
| outcome_zero_scale :
    (scale (entry_before t value st) == 0)%Q ->
    setitem_outcome t key value st (Raise ZeroDivisionError (state_before t value st))
| outcome_rejected :
    ~ (scale (entry_before t value st) == 0)%Q ->
    base_setitem key (clipped t value st) (stored t st) = None ->
    setitem_outcome t key value st (Raise ValueError (state_before t value st))
| outcome_empty new :
    ~ (scale (entry_before t value st) == 0)%Q ->
    base_setitem key (clipped t value st) (stored t st) = Some new ->
    amax_absolute (clipped t value st) = None ->
    setitem_outcome t key value st
      (Raise ValueError (state_stored t new (state_before t value st)))
| outcome_written new m :
    ~ (scale (entry_before t value st) == 0)%Q ->
    base_setitem key (clipped t value st) (stored t st) = Some new ->
    amax_absolute (clipped t value st) = Some m ->
    setitem_outcome t key value st
      (Ok tt (state_after t (py_int m) (state_stored t new (state_before t value st)))).

(** *** The stages of a group call *)

(** The state in which the loop over the kernels starts: the counter
    advanced twice, the diagnostic data saved. *)
Definition state_entered (st : State) : State :=
  mkState (save_diagnostic_data
             (set_count (autoflex_count (set_count (autoflex_count (flex_manager st) + 1)
                                                   (flex_manager st)) + 1)
                        (set_count (autoflex_count (flex_manager st) + 1) (flex_manager st))))
          (device st)
          (((trace st ++ [EvCount]) ++ [EvCount]) ++ [EvSaveDiagnostic]).

(** The ways the turn of one kernel ends. *)
Inductive run_kernel_outcome (i : nat) (k : Kernel) (st : State) : Result Kernel -> Prop :=
| kernel_unallocated :
    allocated (flex_manager st) = false ->
    run_kernel_outcome i k st
      (Raise FatalError
         (mkState (flex_manager st) (device st) (trace st ++ [EvManageBefore i])))
| kernel_unbound e :
    allocated (flex_manager st) = true ->
    run_kernel_outcome i k st
      (Raise e
         (mkState (manager_manage_before_computation k (flex_manager st)) (device st)
                  (trace st ++ [EvManageBefore i; EvBindFlexScales i])))
| kernel_unallocated_after k' :
    allocated (flex_manager st) = true ->
    allocated (manager_manage_before_computation k (flex_manager st)) = false ->
    run_kernel_outcome i k st
      (Raise FatalError
         (mkState (manager_manage_before_computation k (flex_manager st))
                  (kernel_execute k' (device st))
                  (trace st ++ [EvManageBefore i; EvBindFlexScales i;
                                EvExecute i; EvManageAfter i])))
| kernel_done k' :
    allocated (flex_manager st) = true ->
    allocated (manager_manage_before_computation k (flex_manager st)) = true ->
    run_kernel_outcome i k st
      (Ok k'
         (mkState (manager_manage_after_computation k' (kernel_execute k' (device st))
                     (manager_manage_before_computation k (flex_manager st)))
                  (kernel_execute k' (device st))
                  (trace st ++ [EvManageBefore i; EvBindFlexScales i;
                                EvExecute i; EvManageAfter i]))).

End Stages.

(** * The rest of the module and its companions *)

(** ** Repeated calls of a kernel group *)

Section Calls.
Context {RT : FlexRuntime}.

(** [n] calls of a group in a row, as a training loop makes them; the
    sequence stops at the first exception. *)
Fixpoint calls (n : nat) (g : FlexGPUKernelGroup) : M FlexGPUKernelGroup :=
  match n with
  | O => mret g
  | S n => g ← call g; calls n g
  end.

End Calls.

(** An element-wise kernel is ready to be bound when it carries its
    [flex_scale_info] and every recorded index is one of its slots. *)
Definition ew_ready (k : Kernel) : Prop :=
  kernel_class k = ElementWiseKernel ->
  exists info, flex_scale_info k = Some info /\
    forall i d, In (i, d) info -> (i < length (params k))%nat.

(** No flex entry of the manager has a zero scale. *)
Definition scales_nonzero (m : FlexManager) : Prop :=
  forall id : nat, ~ (scale (flex_entries m !!! id) == 0)%Q.

(** The relation between the state before and the state after a part of a
    group call that returns. *)
Definition call_keeps (st st' : State) : Prop :=
  allocated (flex_manager st') = true /\
  scales_nonzero (flex_manager st') /\
  autoflex_count (flex_manager st') = autoflex_count (flex_manager st).

Section RuntimeProperties2.
Context (RT : FlexRuntime).

(** [bind_ptr] keeps the number of parameters. *)
Definition bind_ptr_keeps_length : Prop :=
  forall ps, length (bind_ptr ps) = length ps.

(** The [bind_flex_scales] of the other kernels keeps their class. *)
Definition kernel_bind_keeps_class : Prop :=
  forall k es, kernel_class (kernel_bind_flex_scales k es) = kernel_class k.

(** The hooks of the manager keep the scales away from zero. *)
Definition manager_hooks_keep_scales_nonzero : Prop :=
  (forall k m, scales_nonzero m -> scales_nonzero (manager_manage_before_computation k m)) /\
  (forall k d m, scales_nonzero m ->
     scales_nonzero (manager_manage_after_computation k d m)) /\
  (forall m, scales_nonzero m -> scales_nonzero (save_diagnostic_data m)).

End RuntimeProperties2.

(** ** Names of device tensors *)

(** [str(n)] for a dimension. *)
Definition py_str (n : nat) : string := NilEmpty.string_of_uint (Nat.to_uint n).

(** ["_".join(parts)] *)
Fixpoint join_underscore (parts : list string) : string :=
  match parts with
  | [] => EmptyString
  | [p] => p
  | p :: rest => p +:+ "_" +:+ join_underscore rest
  end.

(** A string without the separator. *)
Fixpoint no_underscore (s : string) : Prop :=
  match s with
  | EmptyString => True
  | String c s => c <> "_"%char /\ no_underscore s
  end.

(** The name [create_device_tensor] gives to the tensor of a description
    with the name [name] and the shape [shape]. *)
Definition device_tensor_name (name : string) (shape : list nat) : string :=
  let shape_str := join_underscore (map py_str shape) in
  "v_" +:+ name +:+ "_" +:+ shape_str.

(** ** The Penn Treebank data set ([examples/ptb/ptb.py])

    Tokens are the characters of a file.  The files are read through
    [fetch_file] and [open], which are not modelled: [load_data] takes the
    contents of the three files. *)

Definition char_le (a b : ascii) : Prop := (nat_of_ascii a <= nat_of_ascii b)%nat.

#[global] Instance char_le_dec a b : Decision (char_le a b) :=
  ltac:(unfold char_le; apply _).

(** [sorted(set(tokens))] *)
Definition sorted_set (tokens : list ascii) : list ascii :=
  merge_sort char_le (remove_dups tokens).

(** [dict(pairs)]: a later pair replaces an earlier one with the same key. *)
Definition dict {K V} `{Countable K} (pairs : list (K * V)) : gmap K V :=
  fold_left (fun m p => <[p.1 := p.2]> m) pairs ∅.

(** [dict((t, i) for i, t in enumerate(vocab))] *)
Definition make_token_to_index (vocab : list ascii) : gmap ascii nat :=
  dict (imap (fun i t => (t, i)) vocab).

(** [dict((i, t) for i, t in enumerate(vocab))] *)
Definition make_index_to_token (vocab : list ascii) : gmap nat ascii :=
  dict (imap (fun i t => (i, t)) vocab).

(** [[self.token_to_index[t] for t in tokens]]; [None] is the [KeyError]
    of a token that the dictionary lacks. *)
Definition encode (token_to_index : gmap ascii nat) (tokens : list ascii)
  : option (list nat) :=
  mapM (fun t => token_to_index !! t) tokens.

(** [X.copy()] or [np.concatenate((X[1:], X[:1]))] *)
Definition target (reverse_target : bool) (X : list nat) : list nat :=
  if reverse_target then X else drop 1 X ++ take 1 X.

Record PTB : Type := mkPTB {
  reverse_target : bool;
  vocab : option (list ascii);
  token_to_index : gmap ascii nat;
  index_to_token : gmap nat ascii;
  data_dict : gmap string (list nat * list nat)
}.

(** [PTB.__init__] *)
Definition PTB_init (reverse_target : bool) : PTB :=
  mkPTB reverse_target None ∅ ∅ ∅.

(** One turn of the loop of [load_data]. *)
Definition load_phase (self : PTB) (phase : string) (tokens : list ascii) : option PTB :=
  let vocab' := sorted_set (match vocab self with None => tokens | Some v => v end) in
  let t2i := make_token_to_index vocab' in
  let i2t := make_index_to_token vocab' in
  X ← encode t2i tokens;
  let y := target (reverse_target self) X in
  Some (mkPTB (reverse_target self) (Some vocab') t2i i2t
              (<[phase := (X, y)]> (data_dict self))).

(** [load_data], on the contents of the train, test and valid files. *)
Definition load_data (self : PTB) (train test valid : list ascii) : option PTB :=
  let self := mkPTB (reverse_target self) None (token_to_index self)
                    (index_to_token self) ∅ in
  self ← load_phase self "train" train;
  self ← load_phase self "test" test;
  load_phase self "valid" valid.

(** The text that a list of indices stands for. *)
Definition decode (index_to_token : gmap nat ascii) (X : list nat) : option (list ascii) :=
  mapM (fun i => index_to_token !! i) X.

(** A small data set: the train file holds "abcab", the test file "ba" and
    the valid file "cc". *)
Definition sample_ptb : PTB :=
  match load_data (PTB_init false)
          (list_ascii_of_string "abcab") (list_ascii_of_string "ba")
          (list_ascii_of_string "cc") with
  | Some self => self
  | None => PTB_init false
  end.

(** ** The test template ([ngraph/testing/template.py]) *)

(** [template_one_placeholder]: the executor is run on each value that has
    an expected value beside it, and the first result that differs from its
    expected value fails the assertion.  [None] is the [AssertionError]. *)
Fixpoint template_one_placeholder (const_executor : Q -> Q)
    (values expected_values : list Q) : option unit :=
  match values, expected_values with
  | value :: values, expected_value :: expected_values =>
      let flex := const_executor value in
      if Qeq_bool flex expected_value
      then template_one_placeholder const_executor values expected_values
      else None
  | _, _ => Some tt
  end.

(** * The write and the read on doubles

    How far the value read back lies from the value written is decided by
    the rounding of the quotient [value / self.scale] and of the product of
    the stored integer and the scale.  For that question the write and the
    read are modelled once more, with every quotient and product rounded to
    a double. *)

(** The exponent of the leading bit of a positive rational [q]: the [k] with
    [2 ^ k <= q < 2 ^ (k + 1)]. *)
Definition Qlog2 (q : Q) : Z :=
  let k := Z.log2 (Qnum q) - Z.log2 (Z.pos (Qden q)) in
  if Qle_bool (2 ^ k) q then k else k - 1.

(** The integer nearest to [q]; of two that are equally near, the even
    one. *)
Definition round_half_even (q : Q) : Z :=
  let f := Qfloor q in
  match (q - inject_Z f ?= 1 # 2)%Q with
  | Lt => f
  | Gt => f + 1
  | Eq => if Z.even f then f else f + 1
  end.

(** The double nearest to a real number: a significand of 53 bits, rounded
    to nearest, ties to the even significand, as the arithmetic of Python
    floats and of numpy's [float64] rounds every result.  The range of the
    exponent is not modelled: overflow to an infinity and the subnormal
    numbers below [2 ^ -1022] are outside. *)
Definition binary64 (q : Q) : Q :=
  if Qeq_bool q 0 then 0%Q
  else let e := Qlog2 (Qabs q) - 52 in
       Qred (inject_Z (round_half_even (q / 2 ^ e)) * 2 ^ e)%Q.

(** The rational that a double of the machine stands for; [None] for an
    infinity and for nan. *)
Definition Q_of_float (f : float) : option Q :=
  match Prim2SF f with
  | S754_zero _ => Some 0%Q
  | S754_finite s m e =>
      Some (Qred ((if s then - (1) else 1) * inject_Z (Z.pos m) * 2 ^ e))%Q
  | _ => None
  end.

Module Double.
Section Model.
Context {RT : FlexRuntime}.

(** [FlexGPUDeviceTensor.get] *)
Definition get (t : FlexGPUDeviceTensor) : M (list Q) :=
  tensor ← base_get t;
  s ← tensor_scale t;
  mret (map (fun z => binary64 (inject_Z z * s)) tensor).

(** [value / self.scale].  Division by a zero scale raises for a Python
    scalar; for an array numpy yields non-finite values and the write goes
    on, which the model does not represent: it stops there as well. *)
Definition divide_by_scale (value : Value) (s : Q) : M Value :=
  if Qeq_bool s 0 then raise ZeroDivisionError
  else match value with
       | Scalar q => mret (Scalar (binary64 (q / s)))
       | NdArray a => mret (NdArray (map (fun q => binary64 (q / s)) a))
       end.

(** [FlexGPUDeviceTensor.__setitem__] *)
Definition setitem (t : FlexGPUDeviceTensor) (key : Key) (value : Value) : M unit :=
  let id := tensor_flex_entry t in
  (* flex management *)
  e ← get_entry id;
  log (EvEntryBefore id value);;
  put_entry id (entry_manage_before_computation value e);;
  (* store integer representation *)
  s ← tensor_scale t;
  value ← divide_by_scale value s;
  (* check for overflow and clip *)
  e ← get_entry id;
  let bits := Z.pos (storage_bits (dtype e)) - 1 in
  let maxval := 2 ^ bits - 1 in
  let minval := - 2 ^ bits in
  let value := clip maxval minval value in
  (* set modified values *)
  store t key value;;
  (* flex management *)
  maxabs ← maxabs_of value;
  m ← get_manager;
  e ← get_entry id;
  log (EvEntryAfter id maxabs (autoflex_count m));;
  put_entry id (entry_manage_after_computation maxabs (autoflex_count m) e).

End Model.
End Double.

Section StoreProperties.
Context (RT : FlexRuntime).

(** The base store puts, where it writes a scalar, an integer at most
    [beta] away from the value it was given, and keeps the other elements:
    [beta] is one half for a store that rounds to nearest, and one for a
    store that takes the floor or the ceiling. *)
Definition store_converts_within (beta : Q) : Prop :=
  forall key q old new, base_setitem key (Scalar q) old = Some new ->
  forall (i : nat) z, new !! i = Some z ->
    old !! i = Some z \/ (Qabs (inject_Z z - q) <= beta)%Q.

End StoreProperties.

(** The doubles 0.55 and 0.1. *)
Definition double_055 : Q := binary64 (55 # 100).
Definition double_01 : Q := binary64 (1 # 10).

(** The sample state with the double 0.1 as the scale of the entry of the
    sample tensor. *)
Definition double_sample_state : State :=
  mkState (mkFlexManager false false 0 (<[0%nat := sample_entry 0 double_01]> ∅) true)
          (<[0%nat := [5; -3; 12]]> ∅) [].

(** * Properties *)

Section Properties.
Context {RT : FlexRuntime}.

Lemma entry_of_insert id e m d tr :
  entry_of id (mkState (set_entries (<[id := e]> (flex_entries m)) m) d tr) = e.
Proof. unfold entry_of; simpl. apply lookup_total_insert_eq. Qed.

Lemma setitem_cases t key value st :
  setitem_outcome t key value st (setitem t key value st).
Proof.
  unfold setitem, tensor_scale, divide_by_scale, store, maxabs_of, put_entry,
    get_entry, get_manager, put_manager, log, raise.
  unfold mbind, M_bind, mret, M_ret. simpl.
  rewrite !entry_of_insert.
  fold (entry_before t value st).
  destruct (Qeq_bool (scale (entry_before t value st)) 0) eqn:Hs.
  - apply outcome_zero_scale. now apply Qeq_bool_iff.
  - assert (Hnz : ~ (scale (entry_before t value st) == 0)%Q)
      by (intros H; apply Qeq_bool_iff in H; congruence).
    assert (Hclip : forall a,
      (match value with
       | Scalar q => fun st0 => Ok (Scalar (q / scale (entry_before t value st))%Q) st0
       | NdArray a0 =>
           fun st0 => Ok (NdArray (map (fun q => q / scale (entry_before t value st))%Q a0)) st0
       end) a =
      Ok (match value with
          | Scalar q => Scalar (q / scale (entry_before t value st))%Q
          | NdArray a0 => NdArray (map (fun q => q / scale (entry_before t value st))%Q a0)
          end) a) by (intros; destruct value; reflexivity).
    rewrite Hclip. rewrite entry_of_insert. simpl.
    fold (clip_bits (entry_before t value st)).
    fold (clipped t value st). fold (stored t st).
    destruct (base_setitem key (clipped t value st) (stored t st)) as [new|] eqn:Hb.
    + destruct (amax_absolute (clipped t value st)) as [m|] eqn:Hm.
      * now apply outcome_written.
      * now apply outcome_empty.
    + now apply outcome_rejected.
Qed.

(** *** Arithmetic of the clip *)

Lemma Qltb_true x y : Qltb x y = true -> (x < y)%Q.
Proof.
  unfold Qltb. intros H. apply negb_true_iff in H.
  apply Qnot_le_lt. intros Hle. apply Qle_bool_iff in Hle. congruence.
Qed.

Lemma Qltb_false x y : Qltb x y = false -> (y <= x)%Q.
Proof.
  unfold Qltb. intros H. apply negb_false_iff in H. now apply Qle_bool_iff.
Qed.

Lemma Qle_bool_false x y : Qle_bool x y = false -> (y < x)%Q.
Proof.
  intros H. apply Qnot_le_lt. intros Hle. apply Qle_bool_iff in Hle. congruence.
Qed.

Lemma pow_clip_bits_pos e : 0 < 2 ^ clip_bits e.
Proof. unfold clip_bits. apply Z.pow_pos_nonneg; lia. Qed.

Lemma inject_Z_pred P : (inject_Z (P - 1) == inject_Z P - 1)%Q.
Proof. unfold Z.sub. rewrite inject_Z_plus. reflexivity. Qed.

Lemma inject_Z_neg P : (inject_Z (- P) == - inject_Z P)%Q.
Proof. rewrite inject_Z_opp. reflexivity. Qed.

Lemma inject_Z_ge_1 P : 0 < P -> (1 <= inject_Z P)%Q.
Proof. intros H. change 1%Q with (inject_Z 1). rewrite <- Zle_Qle. lia. Qed.

(** Every element of a clipped value lies between the bounds. *)
Lemma clip_elems_bounded P v q :
  0 < P -> In q (elems (clip (P - 1) (- P) v)) ->
  (inject_Z (- P) <= q <= inject_Z (P - 1))%Q.
Proof.
  intros HP Hin. pose proof (inject_Z_ge_1 P HP) as H1.
  rewrite inject_Z_pred, inject_Z_neg.
  destruct v as [q0|a]; simpl in Hin.
  - destruct Hin as [<-|[]].
    destruct (Qle_bool 0 q0) eqn:H0.
    + apply Qle_bool_iff in H0. unfold py_min.
      destruct (Qltb (inject_Z (P - 1)) q0) eqn:Hlt.
      * rewrite inject_Z_pred. lra.
      * apply Qltb_false in Hlt. rewrite inject_Z_pred in Hlt. lra.
    + apply Qle_bool_false in H0. unfold py_max.
      destruct (Qltb q0 (inject_Z (- P))) eqn:Hlt.
      * rewrite inject_Z_neg. lra.
      * apply Qltb_false in Hlt. rewrite inject_Z_neg in Hlt. lra.
  - apply in_map_iff in Hin as (q1 & <- & Hin).
    apply in_map_iff in Hin as (q2 & <- & _).
    destruct (Qltb (inject_Z (P - 1)) q2) eqn:Hhi.
    + destruct (Qltb (inject_Z (P - 1)) (inject_Z (- P))) eqn:Hlo.
      * rewrite inject_Z_neg. lra.
      * rewrite inject_Z_pred. lra.
    + apply Qltb_false in Hhi. rewrite inject_Z_pred in Hhi.
      destruct (Qltb q2 (inject_Z (- P))) eqn:Hlo.
      * rewrite inject_Z_neg. lra.
      * apply Qltb_false in Hlo. rewrite inject_Z_neg in Hlo. lra.
Qed.

(** A value inside the bounds is not changed by the clip. *)
Lemma clip_scalar_in_range P q :
  0 < P -> (inject_Z (- P) <= q <= inject_Z (P - 1))%Q ->
  clip (P - 1) (- P) (Scalar q) = Scalar q.
Proof.
  intros HP [Hlo Hhi]. simpl. f_equal.
  destruct (Qle_bool 0 q).
  - unfold py_min. destruct (Qltb (inject_Z (P - 1)) q) eqn:Hlt; [|reflexivity].
    apply Qltb_true in Hlt. lra.
  - unfold py_max. destruct (Qltb q (inject_Z (- P))) eqn:Hlt; [|reflexivity].
    apply Qltb_true in Hlt. lra.
Qed.

Lemma py_int_nonneg q : (0 <= q)%Q -> py_int q = Qfloor q.
Proof.
  destruct q as [n d]. unfold Qle, py_int, Qfloor. simpl. intros H.
  apply Z.quot_div_nonneg; lia.
Qed.

Lemma py_int_bounds q n : (0 <= q <= inject_Z n)%Q -> 0 <= py_int q <= n.
Proof.
  intros [H0 Hn]. rewrite (py_int_nonneg _ H0). split.
  - change 0 with (Qfloor 0). now apply Qfloor_resp_le.
  - rewrite <- (Qfloor_Z n). now apply Qfloor_resp_le.
Qed.

Lemma fold_max_In (l : list Q) x :
  let m := fold_left (fun m y => if Qltb m y then y else m) l x in
  m = x \/ In m l.
Proof.
  revert x. induction l as [|y l IH]; intros x; simpl; [now left|].
  destruct (IH (if Qltb x y then y else x)) as [H|H]; [|now right; right].
  destruct (Qltb x y); [right; left|left]; congruence.
Qed.

Lemma amax_In a m : amax a = Some m -> In m a.
Proof.
  destruct a as [|x l]; simpl; [discriminate|].
  intros [= <-]. destruct (fold_max_In l x) as [H|H]; [left|right]; auto.
Qed.

(** The magnitude computed from a clipped value is at most the magnitude of
    the negative bound. *)
Lemma amax_absolute_clip_bounded P v m :
  0 < P -> amax_absolute (clip (P - 1) (- P) v) = Some m ->
  (0 <= m <= inject_Z P)%Q.
Proof.
  intros HP Hm.
  assert (exists q, In q (elems (clip (P - 1) (- P) v)) /\ m = Qabs q) as (q & Hin & ->).
  { destruct (clip (P - 1) (- P) v) as [q0|a]; simpl in Hm.
    - injection Hm as <-. exists q0. simpl. auto.
    - apply amax_In in Hm. apply in_map_iff in Hm as (q & <- & Hq). eauto. }
  apply clip_elems_bounded in Hin; [|assumption].
  rewrite inject_Z_pred, inject_Z_neg in Hin.
  split; [apply Qabs_nonneg|]. apply Qabs_Qle_condition. lra.
Qed.

(** *** Writes *)

Lemma drop_trace (tr l : list Event) : drop (length tr) (tr ++ l) = l.
Proof. apply drop_app_length. Qed.

(** The log after a write, whatever its outcome. *)
Lemma setitem_new_events t key value st :
  let id := tensor_flex_entry t in
  let evs := new_events st (final (setitem t key value st)) in
  evs = [EvEntryBefore id value] \/
  evs = [EvEntryBefore id value; EvStore (tensor_id t)] \/
  exists q, amax_absolute (clipped t value st) = Some q /\
    setitem t key value st =
      Ok tt (state_after t (py_int q)
               (state_stored t (stored t (final (setitem t key value st)))
                  (state_before t value st))) /\
    evs = [EvEntryBefore id value; EvStore (tensor_id t);
           EvEntryAfter id (py_int q) (autoflex_count (flex_manager st))].
Proof.
  intros id evs. subst evs. unfold new_events.
  destruct (setitem_cases t key value st) as [Hs|Hs Hb|new Hs Hb Hm|new m Hs Hb Hm]; simpl.
  - left. apply drop_trace.
  - left. apply drop_trace.
  - right; left. rewrite <- app_assoc. apply drop_trace.
  - right; right. exists m. split; [assumption|]. split.
    + unfold stored at 1. simpl. now rewrite lookup_total_insert_eq.
    + rewrite <- !app_assoc. apply drop_trace.
Qed.

(** C10. The magnitude that a write reports to [manage_after_computation]
    is the truncated maximum of the absolute values of the clipped value,
    hence an integer between 0 and [2 ^ (storage_bits - 1)], however large
    the requested value is. *)
Theorem setitem_reports_clipped_maxabs t key value st id m c :
  In (EvEntryAfter id m c) (new_events st (final (setitem t key value st))) ->
  (exists q, amax_absolute (clipped t value st) = Some q /\ m = py_int q) /\
  0 <= m <= 2 ^ (Z.pos (storage_bits (dtype (entry_before t value st))) - 1).
Proof.
  intros Hin.
  destruct (setitem_new_events t key value st) as [H|[H|(q & Hq & _ & H)]];
    rewrite H in Hin; simpl in Hin.
  - destruct Hin as [Hin|[]]; discriminate.
  - destruct Hin as [Hin|[Hin|[]]]; discriminate.
  - destruct Hin as [Hin|[Hin|[Hin|[]]]]; try discriminate.
    injection Hin as <- <- <-. split; [eauto|].
    apply py_int_bounds. unfold clipped in Hq.
    eapply amax_absolute_clip_bounded; [apply pow_clip_bits_pos|exact Hq].
Qed.









(** C9. A read returns the stored integers times the current scale and
    leaves the state as it found it: it logs no hook, and the flex entries
    and the cycle counter of the manager are unchanged.  A write always
    calls the hook before the computation. *)
Theorem get_is_adaptation_free t st :
  get t st =
    Ok (map (fun z => inject_Z z * scale (entry_of (tensor_flex_entry t) st))%Q (stored t st))
       st /\
  new_events st (final (get t st)) = [] /\
  flex_manager (final (get t st)) = flex_manager st /\
  forall key value,
    exists rest, new_events st (final (setitem t key value st)) =
                 EvEntryBefore (tensor_flex_entry t) value :: rest.
Proof.
  split; [reflexivity|]. split; [apply drop_all|]. split; [reflexivity|].
  intros key value.
  destruct (setitem_new_events t key value st) as [H|[H|(q & _ & _ & H)]];
    rewrite H; eauto.
Qed.

(** *** Scale binding *)

Lemma scale_info_from_In n ps i d :
  In (i, d) (scale_info_from n ps) <->
  exists j : nat, i = (n + j)%nat /\ ps !! j = Some (PFlexScale d).
Proof.
  revert n. induction ps as [|p ps IH]; intros n; simpl.
  - split; [intros []|intros (j & _ & H); discriminate].
  - assert (Htail : In (i, d) (scale_info_from (S n) ps) <->
                    exists j : nat, i = (n + S j)%nat /\ ps !! j = Some (PFlexScale d)).
    { rewrite IH. split; intros (j & -> & Hj); exists j; split; auto; lia. }
    destruct p as [d'| | |]; simpl; rewrite ?Htail.
    + split.
      * intros [[= <- <-]|(j & -> & Hj)].
        -- exists 0%nat. split; [lia|reflexivity].
        -- exists (S j). auto.
      * intros ([|j] & -> & Hj); simpl in Hj.
        -- left. injection Hj as <-. f_equal. lia.
        -- right. eauto.
    + split; [intros (j & -> & Hj); exists (S j); auto|].
      intros ([|j] & -> & Hj); simpl in Hj; [discriminate|eauto].
    + split; [intros (j & -> & Hj); exists (S j); auto|].
      intros ([|j] & -> & Hj); simpl in Hj; [discriminate|eauto].
    + split; [intros (j & -> & Hj); exists (S j); auto|].
      intros ([|j] & -> & Hj); simpl in Hj; [discriminate|eauto].
Qed.

Lemma scale_info_from_ge n ps i : In i (map fst (scale_info_from n ps)) -> (n <= i)%nat.
Proof.
  intros H. apply in_map_iff in H as ([i' d] & <- & H).
  apply scale_info_from_In in H as (j & -> & _). simpl. lia.
Qed.

(** Every slot is recorded once. *)
Lemma scale_info_from_NoDup n ps : List.NoDup (map fst (scale_info_from n ps)).
Proof.
  revert n. induction ps as [|p ps IH]; intros n; simpl; [constructor|].
  destruct p; simpl; try apply IH.
  constructor; [|apply IH].
  intros H. apply scale_info_from_ge in H. lia.
Qed.

(** The binding loop reads the state and does not change it; when every
    recorded index is a slot and no output scale is zero it succeeds, the
    recorded slots hold the bound scales and the other slots are kept. *)
Lemma bind_scales_spec info : forall ps st,
  List.NoDup (map fst info) ->
  (forall i d, In (i, d) info ->
     (i < length ps)%nat /\
     (is_output d = true -> ~ (scale (entry_of (flex_entry d) st) == 0)%Q)) ->
  exists ps', bind_scales info ps st = Ok ps' st /\
    length ps' = length ps /\
    (forall i d, In (i, d) info -> ps' !! i = Some (PFloat (bound_scale d st))) /\
    (forall j : nat, ~ In j (map fst info) -> ps' !! j = ps !! j).
Proof.
  induction info as [|[index desc] rest IH]; intros ps st Hnd Hok; simpl.
  - exists ps. repeat split; auto. intros i d [].
  - inversion Hnd as [|? ? Hnotin Hnd']; subst.
    destruct (Hok index desc (or_introl eq_refl)) as [Hlt Hnz].
    unfold mbind, M_bind, get_entry.
    assert (Hs : (if is_output desc
                  then if Qeq_bool (scale (entry_of (flex_entry desc) st)) 0
                       then raise ZeroDivisionError
                       else mret (1 / scale (entry_of (flex_entry desc) st))%Q
                  else mret (scale (entry_of (flex_entry desc) st))) st
                 = Ok (bound_scale desc st) st).
    { unfold bound_scale. destruct (is_output desc); [|reflexivity].
      destruct (Qeq_bool (scale (entry_of (flex_entry desc) st)) 0) eqn:Hz; [|reflexivity].
      apply Qeq_bool_iff in Hz. now destruct Hnz. }
    rewrite Hs. rewrite bool_decide_eq_true_2 by exact Hlt.
    destruct (IH (<[index := PFloat (bound_scale desc st)]> ps) st Hnd') as (ps' & Hrun & Hlen & Hin & Hout).
    { intros i d Hid. rewrite length_insert. apply Hok. now right. }
    exists ps'. split; [exact Hrun|]. rewrite length_insert in Hlen.
    split; [exact Hlen|]. split.
    + intros i d [[= <- <-]|Hid]; [|now apply Hin].
      rewrite (Hout index Hnotin). now apply list_lookup_insert_eq.
    + intros j Hj. simpl in Hj. rewrite Hout by tauto.
      apply list_lookup_insert_ne. tauto.
Qed.

(** C4. Binding the flex scales of a compiled element-wise kernel puts, in
    every slot that was recorded with a [FlexScaleDescription], the current
    scale of the entry when the descriptor is an input and [1.0 / scale] when
    it is an output; this on the first call and on every later one. *)
Theorem bind_flex_scales_rule :
  bind_ptr_keeps_scales RT ->
  forall k0 ps st,
  let kernel := set_params ps (set_flex_scale_info (scale_info_from 0 (params k0)) k0) in
  kernel_class k0 = ElementWiseKernel ->
  length ps = length (params k0) ->
  (forall (i : nat) d, params k0 !! i = Some (PFlexScale d) -> is_output d = true ->
     ~ (scale (entry_of (flex_entry d) st) == 0)%Q) ->
  exists kernel', bind_flex_scales kernel st = Ok kernel' st /\
    forall (i : nat) d, params k0 !! i = Some (PFlexScale d) ->
      params kernel' !! i =
        Some (PFloat (if is_output d then (1 / scale (entry_of (flex_entry d) st))%Q
                      else scale (entry_of (flex_entry d) st))).
Proof.
  intros Hptr k0 ps st kernel Hclass Hlen Hnz.
  unfold bind_flex_scales, _ew_bind_flex_scales. subst kernel. simpl. rewrite Hclass. simpl.
  destruct (bind_scales_spec (scale_info_from 0 (params k0)) ps st) as (ps' & Hrun & _ & Hin & _).
  - apply scale_info_from_NoDup.
  - intros i d Hid. apply scale_info_from_In in Hid as (j & -> & Hj). simpl. split.
    + rewrite Hlen. now apply lookup_lt_Some in Hj.
    + now apply (Hnz j).
  - unfold mbind, M_bind. rewrite Hrun. eexists. split; [reflexivity|].
    intros i d Hid. simpl. apply Hptr. apply (Hin i d).
    apply scale_info_from_In. exists i. auto.
Qed.

(** *** Compilation of a kernel group *)

Lemma with_output_flex_ids_class k st :
  kernel_class (with_output_flex_ids k st) = kernel_class k /\
  params (with_output_flex_ids k st) = params k.
Proof.
  unfold with_output_flex_ids.
  destruct (isinstance (kernel_class k) [ElementWiseKernel]); [now split|].
  destruct (isinstance (kernel_class k) non_flex_kernels); now split.
Qed.

Lemma with_output_flex_ids_ew k st :
  kernel_class k = ElementWiseKernel ->
  output_flex_ids (with_output_flex_ids k st) = Some (ew_output_ids (params k) st).
Proof. unfold with_output_flex_ids. now intros ->. Qed.

Lemma with_output_flex_ids_non_flex k st :
  kernel_class k = DimShuffleKernel ->
  output_flex_ids (with_output_flex_ids k st) = Some [].
Proof. unfold with_output_flex_ids. now intros ->. Qed.

Lemma with_output_flex_ids_some k st :
  (kernel_class k <> ElementWiseKernel -> kernel_class k <> DimShuffleKernel ->
   output_flex_ids k <> None) ->
  output_flex_ids (with_output_flex_ids k st) <> None.
Proof.
  intros H. destruct (decide (kernel_class k = ElementWiseKernel)) as [He|He].
  - now rewrite with_output_flex_ids_ew.
  - destruct (decide (kernel_class k = DimShuffleKernel)) as [Hd|Hd].
    + now rewrite with_output_flex_ids_non_flex.
    + unfold with_output_flex_ids.
      destruct (kernel_class k); simpl; solve [congruence | now apply H].
Qed.

Lemma create_output_flex_ids_loop_spec ks : forall acc st,
  flex_kernels_have_output_ids ks ->
  let ks' := map (fun k => with_output_flex_ids k st) ks in
  create_output_flex_ids_loop ks acc st =
    Ok (ks', acc ++ concat (map kernel_output_ids ks')) st.
Proof.
  induction ks as [|k ks IH]; intros acc st Hall; simpl.
  - unfold mret, M_ret. now rewrite app_nil_r.
  - unfold mbind, M_bind.
    pose proof (with_output_flex_ids_some k st (Hall k (or_introl eq_refl))) as Hk.
    unfold kernel_output_ids at 1.
    destruct (output_flex_ids (with_output_flex_ids k st)) as [ids|]; [|congruence].
    simpl. fold (@mbind M _).
    unfold mbind, M_bind. rewrite IH by (intros k' Hk'; apply Hall; now right).
    simpl. unfold mret, M_ret. now rewrite app_assoc.
Qed.

Lemma ew_scale_info_keeps_ids g :
  map kernel_output_ids (kernels (_create_ew_flex_scale_info g)) =
  map kernel_output_ids (kernels g).
Proof.
  unfold _create_ew_flex_scale_info. simpl. rewrite map_map.
  apply map_ext. intros k.
  now destruct (isinstance (kernel_class k) [ElementWiseKernel]).
Qed.

Lemma compile_all_eq g st :
  flex_kernels_have_output_ids (base_compile_all (kernels g)) ->
  let ks1 := map (fun k => with_output_flex_ids k st) (base_compile_all (kernels g)) in
  compile_all g st =
    Ok (_create_ew_flex_scale_info
          (mkFlexGPUKernelGroup (group_name g) ks1
             (Some (concat (map kernel_output_ids ks1))))) st.
Proof.
  intros Hall ks1. unfold compile_all, _create_output_flex_ids.
  unfold mbind, M_bind. cbn [kernels].
  rewrite create_output_flex_ids_loop_spec by exact Hall. reflexivity.
Qed.

(** The inner loop keeps, in the order of the parameters, the flex id of
    every descriptor with [is_output], and nothing else. *)
Lemma ew_output_ids_omap ps st :
  ew_output_ids ps st =
  omap (fun p => match p with
                 | PFlexScale d =>
                     if is_output d then Some (flex_id (entry_of (flex_entry d) st))
                     else None
                 | _ => None
                 end) ps.
Proof.
  induction ps as [|p ps IH]; [reflexivity|].
  destruct p as [d|p0|q0|z0]; simpl; try exact IH.
  destruct (is_output d); simpl; now rewrite IH.
Qed.

Lemma ew_output_ids_In ps st id :
  In id (ew_output_ids ps st) <->
  exists d, In (PFlexScale d) ps /\ is_output d = true /\
            flex_id (entry_of (flex_entry d) st) = id.
Proof.
  induction ps as [|p ps IH]; simpl.
  - split; [tauto|]. now intros (d & [] & _).
  - destruct p as [d0|p0|q0|z0].
    + destruct (is_output d0) eqn:Hout; simpl; rewrite IH; split.
      * intros [Hid|(d & Hd & Ho & Hid)]; [exists d0; auto|exists d; auto].
      * intros (d & [Heq|Hd] & Ho & Hid).
        -- injection Heq as ->. now left.
        -- right. exists d. auto.
      * intros (d & Hd & Ho & Hid). exists d. auto.
      * intros (d & [Heq|Hd] & Ho & Hid).
        -- injection Heq as ->. congruence.
        -- exists d. auto.
    + rewrite IH. split.
      * intros (d & Hd & H). exists d. auto.
      * intros (d & [Heq|Hd] & H); [discriminate|]. exists d. auto.
    + rewrite IH. split.
      * intros (d & Hd & H). exists d. auto.
      * intros (d & [Heq|Hd] & H); [discriminate|]. exists d. auto.
    + rewrite IH. split.
      * intros (d & Hd & H). exists d. auto.
      * intros (d & [Heq|Hd] & H); [discriminate|]. exists d. auto.
Qed.

(** C5. After [compile_all] the [output_flex_ids] of the group is the
    concatenation, in order, of the [output_flex_ids] of its kernels, so that
    an id is in it exactly when it is an output id of a member kernel.  The
    kernels are those of the base compilation, with their classes and
    parameters.  The ids of an element-wise kernel are, in the order of its
    parameters, the flex ids of the entries of those parameters that are a
    [FlexScaleDescription] with [is_output] set; a [DimShuffleKernel] has
    none; a kernel of another class is left as the base compilation made it.
    So an id is in the list of the group exactly when a member kernel is
    element-wise and has an [is_output] descriptor of that id, or is of
    another class than these two and brought the id itself. *)
Theorem compile_all_output_flex_ids g st :
  flex_kernels_have_output_ids (base_compile_all (kernels g)) ->
  exists g', compile_all g st = Ok g' st /\
    group_output_flex_ids g' = Some (concat (map kernel_output_ids (kernels g'))) /\
    (forall id, In id (concat (map kernel_output_ids (kernels g'))) <->
                exists k, In k (kernels g') /\ In id (kernel_output_ids k)) /\
    length (kernels g') = length (base_compile_all (kernels g)) /\
    map kernel_class (kernels g') = map kernel_class (base_compile_all (kernels g)) /\
    map params (kernels g') = map params (base_compile_all (kernels g)) /\
    (forall k, In k (kernels g') -> kernel_class k = ElementWiseKernel ->
       exists ids, output_flex_ids k = Some ids /\
         ids = omap (fun p => match p with
                              | PFlexScale d =>
                                  if is_output d
                                  then Some (flex_id (entry_of (flex_entry d) st))
                                  else None
                              | _ => None
                              end) (params k) /\
         forall id, In id ids <->
           exists d, In (PFlexScale d) (params k) /\ is_output d = true /\
                     flex_id (entry_of (flex_entry d) st) = id) /\
    (forall k, In k (kernels g') -> kernel_class k = DimShuffleKernel ->
       output_flex_ids k = Some []) /\
    (forall k, In k (kernels g') ->
       kernel_class k <> ElementWiseKernel -> kernel_class k <> DimShuffleKernel ->
       In k (base_compile_all (kernels g))) /\
    (forall id, In id (default [] (group_output_flex_ids g')) <->
       exists k, In k (kernels g') /\
         match kernel_class k with
         | ElementWiseKernel =>
             exists d, In (PFlexScale d) (params k) /\ is_output d = true /\
                       flex_id (entry_of (flex_entry d) st) = id
         | DimShuffleKernel => False
         | _ => exists ids, output_flex_ids k = Some ids /\ In id ids
         end).
Proof.
  intros Hall.
  set (ks1 := map (fun k => with_output_flex_ids k st) (base_compile_all (kernels g))).
  set (g1 := mkFlexGPUKernelGroup (group_name g) ks1
               (Some (concat (map kernel_output_ids ks1)))).
  exists (_create_ew_flex_scale_info g1).
  split; [now apply compile_all_eq|].
  assert (Hks : forall k, In k (kernels (_create_ew_flex_scale_info g1)) ->
    exists k1 k0, In k0 (base_compile_all (kernels g)) /\
      k1 = with_output_flex_ids k0 st /\
      kernel_class k = kernel_class k0 /\ params k = params k0 /\
      output_flex_ids k = output_flex_ids k1 /\
      (kernel_class k0 <> ElementWiseKernel -> kernel_class k0 <> DimShuffleKernel ->
       k = k0)).
  { intros k Hk. simpl in Hk. apply in_map_iff in Hk as (k1 & <- & Hk1).
    subst ks1. apply in_map_iff in Hk1 as (k0 & <- & Hk0).
    exists (with_output_flex_ids k0 st), k0.
    destruct (with_output_flex_ids_class k0 st) as [Hc Hp].
    assert (Hother : kernel_class k0 <> ElementWiseKernel ->
                     kernel_class k0 <> DimShuffleKernel ->
                     with_output_flex_ids k0 st = k0).
    { intros He Hd. unfold with_output_flex_ids.
      destruct (kernel_class k0); simpl; congruence. }
    destruct (isinstance (kernel_class (with_output_flex_ids k0 st)) [ElementWiseKernel])
      eqn:Hew; simpl; repeat split; auto.
    intros He Hd. exfalso. rewrite Hc in Hew.
    destruct (kernel_class k0) eqn:Hclass; vm_compute in Hew; congruence. }
  assert (Hids : group_output_flex_ids (_create_ew_flex_scale_info g1) =
                 Some (concat (map kernel_output_ids
                                   (kernels (_create_ew_flex_scale_info g1)))))
    by now rewrite (ew_scale_info_keeps_ids g1).
  assert (Hmem : forall id,
    In id (concat (map kernel_output_ids (kernels (_create_ew_flex_scale_info g1)))) <->
    exists k, In k (kernels (_create_ew_flex_scale_info g1)) /\
              In id (kernel_output_ids k)).
  { intros id. rewrite in_concat. split.
    + intros (l & Hl & Hid). apply in_map_iff in Hl as (k & <- & Hk). eauto.
    + intros (k & Hk & Hid). exists (kernel_output_ids k). split; [|exact Hid].
      now apply in_map. }
  assert (Hew : forall k, In k (kernels (_create_ew_flex_scale_info g1)) ->
    kernel_class k = ElementWiseKernel ->
    output_flex_ids k = Some (ew_output_ids (params k) st)).
  { intros k Hk Hclass. destruct (Hks k Hk) as (k1 & k0 & _ & -> & Hc & Hp & -> & _).
    rewrite Hp. apply with_output_flex_ids_ew. congruence. }
  assert (Hds : forall k, In k (kernels (_create_ew_flex_scale_info g1)) ->
    kernel_class k = DimShuffleKernel -> output_flex_ids k = Some []).
  { intros k Hk Hclass. destruct (Hks k Hk) as (k1 & k0 & _ & -> & Hc & Hp & Ho & _).
    rewrite Ho. apply with_output_flex_ids_non_flex. congruence. }
  split; [exact Hids|]. split; [exact Hmem|].
  split; [simpl; subst ks1; now rewrite !length_map|].
  split.
  { simpl. subst ks1. rewrite !map_map. apply map_ext. intros k0.
    destruct (with_output_flex_ids_class k0 st) as [Hc Hp].
    now destruct (isinstance (kernel_class (with_output_flex_ids k0 st))
                             [ElementWiseKernel]). }
  split.
  { simpl. subst ks1. rewrite !map_map. apply map_ext. intros k0.
    destruct (with_output_flex_ids_class k0 st) as [Hc Hp].
    now destruct (isinstance (kernel_class (with_output_flex_ids k0 st))
                             [ElementWiseKernel]). }
  split.
  { intros k Hk Hclass. exists (ew_output_ids (params k) st).
    split; [now apply Hew|]. split; [apply ew_output_ids_omap|].
    intros id. apply ew_output_ids_In. }
  split; [exact Hds|].
  split.
  { intros k Hk He Hd. destruct (Hks k Hk) as (k1 & k0 & Hk0 & _ & Hc & _ & _ & Hsame).
    rewrite Hsame by congruence. exact Hk0. }
  intros id. rewrite Hids. cbn [default option.default from_option]. rewrite Hmem. split.
  - intros (k & Hk & Hid). exists k. split; [exact Hk|].
    unfold kernel_output_ids in Hid.
    destruct (kernel_class k) eqn:Hclass.
    + rewrite (Hew k Hk Hclass) in Hid. now apply ew_output_ids_In in Hid.
    + rewrite (Hds k Hk Hclass) in Hid. exact Hid.
    + destruct (output_flex_ids k) as [ids|]; [eauto|destruct Hid].
    + destruct (output_flex_ids k) as [ids|]; [eauto|destruct Hid].
    + destruct (output_flex_ids k) as [ids|]; [eauto|destruct Hid].
    + destruct (output_flex_ids k) as [ids|]; [eauto|destruct Hid].
    + destruct (output_flex_ids k) as [ids|]; [eauto|destruct Hid].
    + destruct (output_flex_ids k) as [ids|]; [eauto|destruct Hid].
  - intros (k & Hk & Hid). exists k. split; [exact Hk|].
    unfold kernel_output_ids.
    destruct (kernel_class k) eqn:Hclass.
    + rewrite (Hew k Hk Hclass). now apply ew_output_ids_In.
    + destruct Hid.
    + destruct Hid as (ids & -> & Hid); exact Hid.
    + destruct Hid as (ids & -> & Hid); exact Hid.
    + destruct Hid as (ids & -> & Hid); exact Hid.
    + destruct Hid as (ids & -> & Hid); exact Hid.
    + destruct Hid as (ids & -> & Hid); exact Hid.
    + destruct Hid as (ids & -> & Hid); exact Hid.
Qed.

(** *** Execution of a kernel group *)

Lemma bind_scales_state info : forall ps st,
  (exists ps', bind_scales info ps st = Ok ps' st) \/
  (exists e, bind_scales info ps st = Raise e st).
Proof.
  induction info as [|[index desc] rest IH]; intros ps st; simpl.
  - left. now exists ps.
  - unfold mbind, M_bind, get_entry.
    destruct (is_output desc).
    + destruct (Qeq_bool (scale (entry_of (flex_entry desc) st)) 0).
      * right. now exists ZeroDivisionError.
      * unfold mret, M_ret. destruct (bool_decide (index < length ps)%nat).
        -- apply IH.
        -- right. now exists IndexError.
    + unfold mret, M_ret. destruct (bool_decide (index < length ps)%nat).
      * apply IH.
      * right. now exists IndexError.
Qed.

(** Binding reads the state and leaves it as it is. *)
Lemma bind_flex_scales_state k st :
  (exists k', bind_flex_scales k st = Ok k' st) \/
  (exists e, bind_flex_scales k st = Raise e st).
Proof.
  unfold bind_flex_scales.
  destruct (isinstance (kernel_class k) [ElementWiseKernel]).
  - unfold _ew_bind_flex_scales. destruct (flex_scale_info k) as [info|].
    + unfold mbind, M_bind.
      destruct (bind_scales_state info (params k) st) as [(ps' & ->)|(e & ->)].
      * left. eexists. reflexivity.
      * right. now exists e.
    + right. now exists AttributeError.
  - left. eexists. reflexivity.
Qed.

Lemma run_kernel_cases i k st : run_kernel_outcome i k st (run_kernel i k st).
Proof.
  unfold run_kernel, setup_kernel_execute, after_kernel_execute, execute,
    manage_before_computation, manage_after_computation.
  unfold mbind, M_bind, log, get_manager, put_manager, get_device, put_device, raise.
  simpl.
  destruct (allocated (flex_manager st)) eqn:Ha; [|now apply kernel_unallocated].
  simpl.
  destruct (bind_flex_scales_state k
              (mkState (manager_manage_before_computation k (flex_manager st)) (device st)
                       ((trace st ++ [EvManageBefore i]) ++ [EvBindFlexScales i])))
    as [(k' & ->)|(e & ->)]; simpl; rewrite <- ?app_assoc; simpl.
  - destruct (allocated (manager_manage_before_computation k (flex_manager st))) eqn:Ha'.
    + now apply kernel_done.
    + now apply kernel_unallocated_after.
  - now apply kernel_unbound.
Qed.

Lemma call_eq g st :
  call g st =
    match base_call 0 (kernels g) (state_entered st) with
    | Ok ks st' => Ok (mkFlexGPUKernelGroup (group_name g) ks (group_output_flex_ids g)) st'
    | Raise e st' => Raise e st'
    end.
Proof. reflexivity. Qed.

Lemma final_call g st :
  final (call g st) = final (base_call 0 (kernels g) (state_entered st)).
Proof. rewrite call_eq. now destruct (base_call 0 (kernels g) (state_entered st)). Qed.

Lemma base_call_cons i k rest st :
  base_call i (k :: rest) st =
    match run_kernel i k st with
    | Ok k' st1 =>
        match base_call (S i) rest st1 with
        | Ok rest' st2 => Ok (k' :: rest') st2
        | Raise e st2 => Raise e st2
        end
    | Raise e st1 => Raise e st1
    end.
Proof. reflexivity. Qed.

(** The loop leaves the counter alone when the hooks of the manager do. *)
Lemma base_call_count :
  manager_hooks_keep_count RT ->
  forall ks i st,
  autoflex_count (flex_manager (final (base_call i ks st))) = autoflex_count (flex_manager st).
Proof.
  intros (Hbefore & Hafter & _) ks.
  induction ks as [|k rest IH]; intros i st; [reflexivity|].
  rewrite base_call_cons.
  destruct (run_kernel_cases i k st) as [Ha|e Ha|k' Ha Ha'|k' Ha Ha']; simpl;
    rewrite ?Hbefore; try reflexivity.
  set (st1 := mkState _ _ _). specialize (IH (S i) st1).
  destruct (base_call (S i) rest st1) as [rest' st2|e st2]; simpl in *;
    rewrite IH; subst st1; simpl; now rewrite Hafter, Hbefore.
Qed.

(** C3. A call of a kernel group advances the cycle counter of the flex
    manager by exactly two, whatever the number of kernels of the group and
    however the call ends. *)
Theorem call_advances_count_by_two :
  manager_hooks_keep_count RT ->
  forall g st,
  autoflex_count (flex_manager (final (call g st))) = autoflex_count (flex_manager st) + 2.
Proof.
  intros Hkeep g st. rewrite final_call, (base_call_count Hkeep).
  destruct Hkeep as (_ & _ & Hsave). simpl. rewrite Hsave. simpl. lia.
Qed.

(** The log of the loop: the events of the kernels in order, all of them
    when the loop returns and a first part of them when it raises. *)
Lemma base_call_trace ks : forall i st,
  exists p, trace (final (base_call i ks st)) = trace st ++ p /\
    p `prefix_of` kernel_events i ks /\
    (forall ks' st', base_call i ks st = Ok ks' st' -> p = kernel_events i ks).
Proof.
  induction ks as [|k rest IH]; intros i st.
  - exists []. simpl. rewrite app_nil_r. split; [reflexivity|]. split; [now exists []|auto].
  - rewrite base_call_cons. cbn [kernel_events].
    destruct (run_kernel_cases i k st) as [Ha|e Ha|k' Ha Ha'|k' Ha Ha']; simpl.
    + exists [EvManageBefore i]. split; [reflexivity|]. split; [|discriminate].
      now exists ([EvBindFlexScales i; EvExecute i; EvManageAfter i]
                    ++ kernel_events (S i) rest).
    + exists [EvManageBefore i; EvBindFlexScales i].
      split; [reflexivity|]. split; [|discriminate].
      now exists ([EvExecute i; EvManageAfter i] ++ kernel_events (S i) rest).
    + exists [EvManageBefore i; EvBindFlexScales i; EvExecute i; EvManageAfter i].
      split; [reflexivity|]. split; [|discriminate]. now exists (kernel_events (S i) rest).
    + set (st1 := mkState _ _ _).
      destruct (IH (S i) st1) as (p & Htr & Hpre & Hok).
      destruct (base_call (S i) rest st1) as [rest' st2|e st2] eqn:Hrun; simpl in *.
      * exists ([EvManageBefore i; EvBindFlexScales i; EvExecute i; EvManageAfter i] ++ p).
        rewrite Htr, <- app_assoc. split; [reflexivity|].
        split; [destruct Hpre as [k0 Hk0]; exists k0; now rewrite Hk0|].
        intros ks' st' _. now rewrite (Hok rest' st2 eq_refl).
      * exists ([EvManageBefore i; EvBindFlexScales i; EvExecute i; EvManageAfter i] ++ p).
        rewrite Htr, <- app_assoc. split; [reflexivity|].
        split; [destruct Hpre as [k0 Hk0]; exists k0; now rewrite Hk0|discriminate].
Qed.

(** C6, in the form the code satisfies. The events of a group call, in
    order: the cycle counter is advanced twice, then the diagnostic data is
    saved, then each kernel in compiled order has its
    [manage_before_computation], its [bind_flex_scales], its execution and
    its [manage_after_computation]. A call that raises stops somewhere in
    this sequence, after the first three events. *)
Theorem call_event_order g st :
  exists p,
    new_events st (final (call g st)) = [EvCount; EvCount; EvSaveDiagnostic] ++ p /\
    p `prefix_of` kernel_events 0 (kernels g) /\
    (forall g' st', call g st = Ok g' st' -> p = kernel_events 0 (kernels g)).
Proof.
  destruct (base_call_trace (kernels g) 0 (state_entered st)) as (p & Htr & Hpre & Hok).
  exists p. split; [|split; [exact Hpre|]].
  - unfold new_events. rewrite final_call, Htr. simpl.
    rewrite <- !app_assoc. apply drop_trace.
  - intros g' st' Hcall. rewrite call_eq in Hcall.
    destruct (base_call 0 (kernels g) (state_entered st)) as [ks st1|] eqn:Hrun;
      [|discriminate].
    now apply (Hok ks st1).
Qed.

(** *** The transformer *)

(** C7. [transform_ordered_ops] calls [allocate] once, after the transform
    of the base class and on the entries registered by then; on a manager
    that is already allocated the call, a second one, is fatal; and a group
    call on a manager that is not allocated executes no kernel and is fatal
    as soon as the group has a kernel. *)
Theorem allocate_once_before_execution :
  manager_hooks_keep_allocated RT ->
  (forall ordered_ops name st ret_val st1,
     base_transform_ordered_ops ordered_ops name st = Ok ret_val st1 ->
     (allocated (flex_manager st1) = false ->
      transform_ordered_ops ordered_ops name st =
        Ok ret_val (mkState (set_allocated true (flex_manager st1)) (device st1)
                            (trace st1 ++ [EvAllocate]))) /\
     (allocated (flex_manager st1) = true ->
      transform_ordered_ops ordered_ops name st =
        Raise FatalError (mkState (flex_manager st1) (device st1)
                                  (trace st1 ++ [EvAllocate])))) /\
  (forall st, allocated (flex_manager st) = true ->
     allocate st = Raise FatalError (mkState (flex_manager st) (device st)
                                             (trace st ++ [EvAllocate]))) /\
  (forall g st, allocated (flex_manager st) = false ->
     (forall i, ~ In (EvExecute i) (new_events st (final (call g st)))) /\
     (kernels g <> [] -> exists st', call g st = Raise FatalError st')).
Proof.
  intros (_ & _ & Hsave). split; [|split].
  - intros ordered_ops name st ret_val st1 Hbase.
    unfold transform_ordered_ops, allocate, mbind, M_bind, log, get_manager, put_manager, raise.
    rewrite Hbase. simpl. split; intros ->; reflexivity.
  - intros st Ha. unfold allocate, mbind, M_bind, log, get_manager, put_manager, raise.
    simpl. now rewrite Ha.
  - intros g st Ha.
    assert (Hentered : allocated (flex_manager (state_entered st)) = false)
      by (simpl; now rewrite Hsave).
    unfold new_events. rewrite final_call, call_eq.
    destruct (kernels g) as [|k rest].
    + split; [|congruence]. simpl. intros i. rewrite <- !app_assoc, drop_trace.
      simpl. intuition discriminate.
    + rewrite base_call_cons.
      destruct (run_kernel_cases 0 k (state_entered st)) as [_|e Ha'|k' Ha' _|k' Ha' _];
        try congruence.
      split.
      * simpl. intros i. rewrite <- !app_assoc, drop_trace. simpl. intuition discriminate.
      * intros _. eexists. reflexivity.
Qed.

(** C8, in the form the code satisfies. [storage_dtype] raises
    [NotImplementedError] for every dtype that is not a [GPUFlex], leaving
    the state as it is, and returns the storage type of a [GPUFlex]; the
    constructor of the transformer takes no dtype and returns a transformer. *)
Theorem storage_dtype_rejects_other_dtypes :
  (forall name st, storage_dtype (OtherDtype name) st = Raise NotImplementedError st) /\
  (forall f st, storage_dtype (FlexDtype f) st = Ok (flex_storage_dtype f) st) /\
  (forall fixed_point flex_verbose st,
     exists tr st', __init__ fixed_point flex_verbose st = Ok tr st').
Proof.
  split; [|split]; try reflexivity.
  intros. eexists. eexists. reflexivity.
Qed.

End Properties.

(** * The distance between a value written and the value read back *)

Section RoundTrip.
Context {RT : FlexRuntime}.

(** *** The rounding to a double *)

Lemma Qpower2_pos k : (0 < 2 ^ k)%Q.
Proof. apply Qpower_0_lt. reflexivity. Qed.

Lemma Qpower2_inject n : 0 <= n -> (2 ^ n == inject_Z (2 ^ n))%Q.
Proof. intros Hn. now rewrite Zpower_Qpower. Qed.

Lemma Qlog2_le q : (0 < q)%Q -> (2 ^ Qlog2 q <= q)%Q.
Proof.
  intros Hq. unfold Qlog2.
  set (k := Z.log2 (Qnum q) - Z.log2 (Z.pos (Qden q))).
  destruct (Qle_bool (2 ^ k) q) eqn:Hle; [now apply Qle_bool_iff|].
  destruct q as [n d]. unfold Qlt in Hq. cbn [Qnum Qden] in Hq, k.
  assert (Hn : 0 < n) by (rewrite Z.mul_0_l, Z.mul_1_r in Hq; exact Hq).
  pose proof (Z.log2_spec n Hn) as [Hn1 _].
  pose proof (Z.log2_spec (Z.pos d) (Pos2Z.is_pos d)) as [_ Hd2].
  pose proof (Z.log2_nonneg n) as Hln. pose proof (Z.log2_nonneg (Z.pos d)) as Hld.
  set (a := Z.log2 n) in *. set (b := Z.log2 (Z.pos d)) in *.
  assert (Heq : (2 ^ (k - 1) == inject_Z (2 ^ a) / inject_Z (2 ^ (b + 1)))%Q).
  { replace (k - 1) with (a + - (b + 1)) by (unfold k; lia).
    rewrite Qpower_plus by discriminate. rewrite Qpower_opp.
    rewrite !Qpower2_inject by lia. reflexivity. }
  rewrite Heq.
  assert (Hb : (0 < inject_Z (2 ^ (b + 1)))%Q).
  { rewrite <- Qpower2_inject by lia. apply Qpower2_pos. }
  apply Qle_shift_div_r; [exact Hb|].
  unfold Qle, Qmult, inject_Z. cbn [Qnum Qden].
  rewrite Pos.mul_1_r, Z.mul_1_r. fold (Z.succ b).
  apply Z.le_trans with (n * Z.pos d); [apply Z.mul_le_mono_nonneg_r; lia|].
  apply Z.mul_le_mono_nonneg_l; lia.
Qed.

Lemma round_half_even_half q : (Qabs (inject_Z (round_half_even q) - q) <= 1 # 2)%Q.
Proof.
  unfold round_half_even.
  pose proof (Qfloor_le q) as Hf. pose proof (Qlt_floor q) as Hl.
  rewrite inject_Z_plus in Hl. change (inject_Z 1) with 1%Q in Hl.
  destruct (q - inject_Z (Qfloor q) ?= 1 # 2)%Q eqn:Hc.
  - apply Qeq_alt in Hc.
    destruct (Z.even (Qfloor q)); [|rewrite inject_Z_plus; change (inject_Z 1) with 1%Q];
      apply Qabs_Qle_condition; split; lra.
  - apply Qlt_alt in Hc. apply Qabs_Qle_condition; split; lra.
  - apply Qgt_alt in Hc. rewrite inject_Z_plus; change (inject_Z 1) with 1%Q.
    apply Qabs_Qle_condition; split; lra.
Qed.

Lemma Qabs_pos_lt q : ~ (q == 0)%Q -> (0 < Qabs q)%Q.
Proof.
  intros Hnz. apply Qabs_case; intros H.
  - apply Qle_lteq in H as [H|H]; [exact H|]. exfalso. apply Hnz. now symmetry.
  - apply Qle_lteq in H as [H|H]; [lra|]. exfalso. now apply Hnz.
Qed.

Lemma binary64_error q : (Qabs (binary64 q - q) <= (1 # 2 ^ 53) * Qabs q)%Q.
Proof.
  unfold binary64. destruct (Qeq_bool q 0) eqn:Hz.
  - apply Qeq_bool_iff in Hz. rewrite Hz. vm_compute. discriminate.
  - assert (Hnz : ~ (q == 0)%Q) by (intros H; apply Qeq_bool_iff in H; congruence).
    rewrite Qred_correct.
    pose proof (Qlog2_le (Qabs q) (Qabs_pos_lt q Hnz)) as Hlog.
    set (e := Qlog2 (Qabs q) - 52) in *.
    pose proof (Qpower2_pos e) as He.
    assert (Hsplit : (2 ^ Qlog2 (Qabs q) == 2 ^ 52 * 2 ^ e)%Q).
    { replace (Qlog2 (Qabs q)) with (52 + e) by (unfold e; lia).
      now rewrite Qpower_plus by discriminate. }
    rewrite Hsplit in Hlog.
    set (x := (q / 2 ^ e)%Q).
    pose proof (round_half_even_half x) as Hhalf.
    assert (Hq : (q == x * 2 ^ e)%Q) by (unfold x; field; lra).
    assert (Hx : (2 ^ 52 <= Qabs x)%Q).
    { apply Qmult_le_r with (z := (2 ^ e)%Q); [exact He|].
      rewrite <- (Qabs_pos (2 ^ e)) at 2 by lra.
      now rewrite <- Qabs_Qmult, <- Hq. }
    clearbody x. clearbody e. rewrite Hq.
    assert (Hdiff : (inject_Z (round_half_even x) * 2 ^ e - x * 2 ^ e ==
                     (inject_Z (round_half_even x) - x) * 2 ^ e)%Q) by ring.
    rewrite Hdiff, !Qabs_Qmult, (Qabs_pos (2 ^ e)) by lra.
    rewrite Qmult_assoc. apply Qmult_le_compat_r; [|lra].
    change (2 ^ 52)%Q with (inject_Z 4503599627370496) in Hx.
    change (1 # 2 ^ 53)%Q with (1 # 9007199254740992)%Q.
    generalize dependent (Qabs x). intros a Ha.
    generalize dependent (Qabs (inject_Z (round_half_even x) - x)). intros b Hb.
    change (inject_Z 4503599627370496) with (4503599627370496 # 1)%Q in Ha. lra.
Qed.

Lemma Qabs_cases_le (x : Q) : (Qabs x == x /\ 0 <= x)%Q \/ (Qabs x == - x /\ x <= 0)%Q.
Proof.
  destruct (Qlt_le_dec x 0) as [H|H].
  - right. split; [apply Qabs_neg|]; lra.
  - left. split; [now apply Qabs_pos|exact H].
Qed.

Lemma roundtrip_arith (v s q' r beta : Q) (z P : Z) :
  (0 < s)%Q -> (0 <= beta <= 1)%Q -> 1 <= P ->
  (Qabs (q' - v / s) <= (1 # 2 ^ 53) * Qabs (v / s))%Q ->
  (inject_Z (- P) <= q' <= inject_Z (P - 1))%Q ->
  (Qabs (inject_Z z - q') <= beta)%Q ->
  (Qabs (r - inject_Z z * s) <= (1 # 2 ^ 53) * Qabs (inject_Z z * s))%Q ->
  (Qabs (r - v) <= s * (beta + (4 # 2 ^ 53) * inject_Z P))%Q.
Proof.
  intros Hs Hbeta HP Hq Hrange Hz Hr.
  assert (Hw : (r - v == s * (r / s - inject_Z z + (inject_Z z - q') + (q' - v / s)))%Q)
    by (field; lra).
  rewrite Hw, Qabs_Qmult, (Qabs_pos s) by lra.
  apply Qmult_le_l; [exact Hs|].
  assert (Hr' : (Qabs (r / s - inject_Z z) <= (1 # 2 ^ 53) * Qabs (inject_Z z))%Q).
  { assert (Hd : (r - inject_Z z * s == s * (r / s - inject_Z z))%Q) by (field; lra).
    rewrite Hd, !Qabs_Qmult, (Qabs_pos s) in Hr by lra.
    apply Qmult_le_l with (z := s); [exact Hs|].
    eapply Qle_trans; [exact Hr|]. apply Qle_lteq. right. ring. }
  clear Hr Hw.
  rewrite inject_Z_opp in Hrange. unfold Z.sub in Hrange.
  rewrite inject_Z_plus in Hrange. change (inject_Z (- (1))) with (- (1))%Q in Hrange.
  assert (HP' : (1 <= inject_Z P)%Q) by (change 1%Q with (inject_Z 1); now rewrite <- Zle_Qle).
  change (1 # 2 ^ 53)%Q with (1 # 9007199254740992)%Q in *.
  change (4 # 2 ^ 53)%Q with (4 # 9007199254740992)%Q.
  apply Qabs_Qle_condition in Hq, Hz, Hr'.
  generalize dependent (r / s)%Q. intros rho Hr'.
  generalize dependent (v / s)%Q. intros a Hq.
  generalize dependent (inject_Z P). intros p Hrange HP'.
  generalize dependent (inject_Z z). intros x Hz Hr'.
  destruct (Qabs_cases_le a) as [[Ha Ha']|[Ha Ha']]; rewrite Ha in Hq;
    destruct (Qabs_cases_le x) as [[Hx Hx']|[Hx Hx']]; rewrite Hx in Hr';
    apply Qabs_Qle_condition; split; lra.
Qed.

(** *** The write and the read *)

Lemma double_get_eq t st :
  Double.get t st =
    Ok (map (fun z => binary64 (inject_Z z * scale (entry_of (tensor_flex_entry t) st)))
            (stored t st)) st.
Proof. reflexivity. Qed.

(** A scalar write that returns has divided by a scale that is not zero,
    rounded the quotient to a double, clipped it and handed it to the base
    store; the tensor holds what the base store made of it. *)
Lemma double_setitem_scalar_ok t key v st st' :
  Double.setitem t key (Scalar v) st = Ok tt st' ->
  let e := entry_before t (Scalar v) st in
  ~ (scale e == 0)%Q /\
  base_setitem key
    (clip (2 ^ clip_bits e - 1) (- 2 ^ clip_bits e) (Scalar (binary64 (v / scale e))))
    (stored t st) = Some (stored t st').
Proof.
  unfold Double.setitem, Double.divide_by_scale, tensor_scale, store, maxabs_of,
    put_entry, get_entry, get_manager, put_manager, log, raise.
  unfold mbind, M_bind, mret, M_ret. simpl.
  rewrite !entry_of_insert.
  fold (entry_before t (Scalar v) st).
  destruct (Qeq_bool (scale (entry_before t (Scalar v) st)) 0) eqn:Hs; [discriminate|].
  rewrite entry_of_insert. simpl.
  fold (clip_bits (entry_before t (Scalar v) st)). fold (stored t st).
  destruct (base_setitem key _ (stored t st)) as [new|] eqn:Hb; [|discriminate].
  simpl. intros Hok. injection Hok as <-. split.
  - intros H. apply Qeq_bool_iff in H. congruence.
  - unfold stored. simpl. now rewrite lookup_total_insert_eq.
Qed.

(** C2, in the form the code satisfies on doubles.  A scalar [v] whose
    quotient by the scale, as a double, lies in the storage range is read
    back, at every element the write touched, at most [beta] scales and the
    rounding of the quotient and of the product away from [v], where [beta]
    is how far the base store puts its integer from the double it is given:
    the write itself divides and clips and does not round. *)
Theorem roundtrip_within_store_error beta :
  (0 <= beta <= 1)%Q -> store_converts_within RT beta ->
  forall t key v st st',
  let e := entry_before t (Scalar v) st in
  let s := scale e in
  (0 < s)%Q ->
  (inject_Z (- 2 ^ clip_bits e) <= binary64 (v / s) <= inject_Z (2 ^ clip_bits e - 1))%Q ->
  Double.setitem t key (Scalar v) st = Ok tt st' ->
  scale (entry_of (tensor_flex_entry t) st') = s ->
  exists vals, Double.get t st' = Ok vals st' /\
    forall (i : nat) r, vals !! i = Some r ->
      (exists z, stored t st !! i = Some z /\ r = binary64 (inject_Z z * s)) \/
      (Qabs (r - v) <= s * (beta + inject_Z (2 ^ clip_bits e) * (1 # 2 ^ 51)))%Q.
Proof.
  intros Hbeta Hstore t key v st st' e s Hs Hrange Hset Hscale.
  eexists. split; [apply double_get_eq|]. intros i r Hr.
  apply list_lookup_fmap_Some in Hr as (z & -> & Hz).
  rewrite Hscale.
  destruct (double_setitem_scalar_ok t key v st st' Hset) as [_ Hb].
  fold e s in Hb.
  rewrite clip_scalar_in_range in Hb by (apply pow_clip_bits_pos || exact Hrange).
  destruct (Hstore _ _ _ _ Hb i z Hz) as [Hold|Hnear].
  - left. exists z. split; [exact Hold|reflexivity].
  - right.
    assert (Hbound : (inject_Z (2 ^ clip_bits e) * (1 # 2 ^ 51) ==
                      (4 # 2 ^ 53) * inject_Z (2 ^ clip_bits e))%Q).
    { assert (Hc : ((4 # 2 ^ 53) == (1 # 2 ^ 51))%Q) by reflexivity.
      rewrite Hc. ring. }
    rewrite Hbound.
    apply (roundtrip_arith v s (binary64 (v / s)) _ beta z (2 ^ clip_bits e)).
    + exact Hs.
    + exact Hbeta.
    + pose proof (pow_clip_bits_pos e). lia.
    + apply binary64_error.
    + exact Hrange.
    + exact Hnear.
    + apply binary64_error.
Qed.

(** A store that takes the floor or the ceiling is within one of what it
    was given. *)
Lemma neighbour_store_converts_within_one :
  store_converts_scalar_to_neighbour RT -> store_converts_within RT 1.
Proof.
  intros Hnb key q old new Hset i z Hz.
  destruct (Hnb key q old new Hset i z Hz) as [Hold|[Hlo Hhi]]; [now left|right].
  rewrite Zle_Qle in Hlo, Hhi.
  pose proof (Qlt_floor q) as Hf. pose proof (Qceiling_lt q) as Hc.
  rewrite inject_Z_plus in Hf. unfold Z.sub in Hc. rewrite inject_Z_plus in Hc.
  change (inject_Z (- (1))) with (-1 # 1)%Q in Hc.
  change (inject_Z 1) with 1%Q in Hf.
  generalize dependent (inject_Z (Qceiling q)).
  generalize dependent (inject_Z (Qfloor q)).
  generalize (inject_Z z). intros x f Hlo Hf c Hhi Hc.
  apply Qabs_Qle_condition. split; lra.
Qed.

End RoundTrip.

(** * The reference runtime meets the conditions of the theorems *)

Section Reference.


Lemma reference_setitem_elements conv key v old new :
  reference_setitem conv key v old = Some new ->
  forall (i : nat) z, new !! i = Some z ->
    old !! i = Some z \/ exists q, In q (elems v) /\ z = conv q.
Proof.
  intros Hset i z Hz. destruct key, v as [q|a]; simpl in Hset; try discriminate.
  - injection Hset as <-. apply list_lookup_fmap_Some in Hz as (_ & -> & _).
    right. exists q. simpl. auto.
  - destruct (bool_decide (length a = length old)); [|discriminate].
    injection Hset as <-. apply list_lookup_fmap_Some in Hz as (q & -> & Hq).
    right. exists q. split; [|reflexivity].
    apply list_elem_of_In, list_elem_of_lookup. eauto.
  - destruct (bool_decide (i0 < length old)%nat); [|discriminate].
    injection Hset as <-. destruct (decide (i0 = i)) as [->|Hne].
    + apply list_lookup_insert_Some in Hz as [(_ & <- & _)|(Hne & _)]; [|congruence].
      right. exists q. simpl. auto.
    + rewrite list_lookup_insert_ne in Hz by exact Hne. now left.
Qed.


Lemma to_nearest_half q : (Qabs (inject_Z (to_nearest q) - q) <= 1 # 2)%Q.
Proof.
  unfold to_nearest.
  pose proof (Qfloor_le (q + (1 # 2))) as Hf. pose proof (Qlt_floor (q + (1 # 2))) as Hl.
  rewrite inject_Z_plus in Hl. change (inject_Z 1) with 1%Q in Hl.
  apply Qabs_Qle_condition. split; lra.
Qed.

Lemma reference_store_within_half : store_converts_within reference_runtime (1 # 2).
Proof.
  intros key q old new Hset i z Hz.
  destruct (reference_setitem_elements to_nearest key (Scalar q) old new Hset i z Hz)
    as [Hold|(q' & [<-|[]] & ->)]; auto.
  right. apply to_nearest_half.
Qed.

Lemma reference_hooks conv :
  entry_hooks_keep_dtype (reference_runtime_with conv) /\
  manager_hooks_keep_count (reference_runtime_with conv) /\
  manager_hooks_keep_allocated (reference_runtime_with conv).
Proof. repeat split. Qed.

Lemma reference_bind_ptr_keeps_scales conv :
  bind_ptr_keeps_scales (reference_runtime_with conv).
Proof.
  intros ps i q Hq. simpl. unfold reference_bind_ptr.
  rewrite list_lookup_fmap, Hq. reflexivity.
Qed.

End Reference.

(** * The theorems at concrete inputs *)

(** A write of [-50000] at scale 1 into 16-bit storage reports 32768. *)
Lemma setitem_reports_clipped_maxabs_witness :
  (exists q, amax_absolute (@clipped reference_runtime sample_tensor (Scalar (-50000))
                              (sample_state true)) = Some q /\ 32768 = py_int q) /\
  0 <= 32768 <= 2 ^ (Z.pos (storage_bits (dtype (@entry_before reference_runtime sample_tensor
                                                   (Scalar (-50000)) (sample_state true)))) - 1).
Proof.
  apply (@setitem_reports_clipped_maxabs reference_runtime sample_tensor KeyAll
           (Scalar (-50000)) (sample_state true) 0%nat 32768 0).
  vm_compute. right; right; left; reflexivity.
Defined.



(** The rounding agrees with the doubles of the machine at the numbers of
    the example below: 0.1, 0.55, their quotient and the products of 0.1
    with 5 and with 6. *)
Example binary64_agrees_with_machine :
  let f01 := (of_uint63 1 / of_uint63 10)%float in
  let f055 := (of_uint63 55 / of_uint63 100)%float in
  Q_of_float f01 = Some double_01 /\
  Q_of_float f055 = Some double_055 /\
  Q_of_float (f055 / f01)%float = Some (binary64 (double_055 / double_01)) /\
  Q_of_float (of_uint63 5 * f01)%float = Some (binary64 (5 * double_01)) /\
  Q_of_float (of_uint63 6 * f01)%float = Some (binary64 (6 * double_01)).
Proof. vm_compute. repeat split. Qed.

(** A write of the double 0.55 at the scale 0.1 through a store that rounds
    to nearest. *)
Lemma roundtrip_within_store_error_witness :
  exists vals,
    Double.get sample_tensor
      (final (@Double.setitem reference_runtime sample_tensor KeyAll (Scalar double_055)
                double_sample_state)) =
    Ok vals (final (@Double.setitem reference_runtime sample_tensor KeyAll
                      (Scalar double_055) double_sample_state)) /\
    forall (i : nat) r, vals !! i = Some r ->
      (exists z, stored sample_tensor double_sample_state !! i = Some z /\
                 r = binary64 (inject_Z z * double_01)) \/
      (Qabs (r - double_055) <= double_01 * ((1 # 2) + inject_Z (2 ^ 15) * (1 # 2 ^ 51)))%Q.
Proof.
  apply (@roundtrip_within_store_error reference_runtime (1 # 2)
           (conj (ltac:(discriminate) : (0 <= 1 # 2)%Q) (ltac:(discriminate) : (1 # 2 <= 1)%Q))
           reference_store_within_half
           sample_tensor KeyAll double_055 double_sample_state).
  - reflexivity.
  - vm_compute. split; discriminate.
  - vm_compute. reflexivity.
  - vm_compute. reflexivity.
Defined.

(** Against C2 as the specification words it.  The double 0.55 at the scale
    0.1 is in range: its quotient is 5.5.  The reference store, which
    rounds to nearest, puts 6, the read returns the double of 6 times 0.1,
    and that is more than half a scale above 0.55.  No other store does
    better: whatever integer is stored, the product of it and the scale,
    rounded to a double, is more than half a scale away from 0.55. *)
Lemma no_integer_reads_back_within_half_scale :
  let v := double_055 in
  let s := double_01 in
  let st := double_sample_state in
  let st' := final (@Double.setitem reference_runtime sample_tensor KeyAll (Scalar v) st) in
  scale (entry_of (tensor_flex_entry sample_tensor) st) = s /\
  binary64 (v / s) = (11 # 2)%Q /\
  @Double.setitem reference_runtime sample_tensor KeyAll (Scalar v) st = Ok tt st' /\
  scale (entry_of (tensor_flex_entry sample_tensor) st') = s /\
  stored sample_tensor st' = [6; 6; 6] /\
  (exists r, Double.get sample_tensor st' = Ok [r; r; r] st' /\
             ~ (Qabs (r - v) <= s / 2)%Q) /\
  (forall z : Z, ~ (Qabs (binary64 (inject_Z z * s) - v) <= s / 2)%Q).
Proof.
  intros v s st st'.
  split; [vm_compute; reflexivity|]. split; [vm_compute; reflexivity|].
  split; [vm_compute; reflexivity|]. split; [vm_compute; reflexivity|].
  split; [vm_compute; reflexivity|]. split.
  { exists (binary64 (6 * s)). split; [vm_compute; reflexivity|].
    vm_compute. intros H. now apply H. }
  clear st st'. unfold double_055 in v. unfold double_01 in s. intros z H.
  assert (Hv : v = (2476979795053773 # 4503599627370496)%Q) by (vm_compute; reflexivity).
  assert (Hs : s = (3602879701896397 # 36028797018963968)%Q) by (vm_compute; reflexivity).
  clearbody v s. subst v s.
  destruct (Z.eq_dec z 5) as [->|H5]; [vm_compute in H; now apply H|].
  destruct (Z.eq_dec z 6) as [->|H6]; [vm_compute in H; now apply H|].
  pose proof (binary64_error (inject_Z z * (3602879701896397 # 36028797018963968))) as He.
  change (1 # 2 ^ 53)%Q with (1 # 9007199254740992)%Q in He.
  assert (Hhalf : ((3602879701896397 # 36028797018963968) / 2 ==
                   3602879701896397 # 72057594037927936)%Q) by reflexivity.
  rewrite Hhalf in H. clear Hhalf.
  apply Qabs_Qle_condition in H.
  assert (Hz : (inject_Z z <= 4)%Q \/ (7 <= inject_Z z)%Q).
  { destruct (Z_le_gt_dec z 4) as [Hle|Hgt].
    - left. change 4%Q with (inject_Z 4). now rewrite <- Zle_Qle.
    - right. change 7%Q with (inject_Z 7). rewrite <- Zle_Qle. lia. }
  generalize dependent (binary64 (inject_Z z * (3602879701896397 # 36028797018963968))).
  intros r H He.
  destruct (Qabs_cases_le (inject_Z z * (3602879701896397 # 36028797018963968)))
    as [[Ha Ha']|[Ha Ha']]; rewrite Ha in He; clear Ha; apply Qabs_Qle_condition in He;
    generalize dependent (inject_Z z); intros x; intros; destruct Hz; lra.
Defined.

(** A call of the compiled sample group, two kernels. *)
Lemma call_advances_count_by_two_witness :
  autoflex_count (flex_manager (final (@call reference_runtime sample_compiled_group
                                         (sample_state true)))) =
  autoflex_count (flex_manager (sample_state true)) + 2.
Proof.
  apply (@call_advances_count_by_two reference_runtime
           (proj1 (proj2 (reference_hooks to_nearest)))).
Defined.

(** The sample element-wise kernel: slot 0 is an input of entry 0 (scale
    1), slots 2 and 4 are outputs of the entries 1 (scale 2) and 2 (scale
    1/4). *)
Lemma bind_flex_scales_rule_witness :
  exists kernel',
    @bind_flex_scales reference_runtime
      (set_params (params sample_ew_kernel)
         (set_flex_scale_info (scale_info_from 0 (params sample_ew_kernel)) sample_ew_kernel))
      (sample_state true) = Ok kernel' (sample_state true) /\
    forall (i : nat) d, params sample_ew_kernel !! i = Some (PFlexScale d) ->
      params kernel' !! i =
        Some (PFloat (if is_output d
                      then (1 / scale (entry_of (flex_entry d) (sample_state true)))%Q
                      else scale (entry_of (flex_entry d) (sample_state true)))).
Proof.
  apply (@bind_flex_scales_rule reference_runtime
           (reference_bind_ptr_keeps_scales to_nearest)
           sample_ew_kernel (params sample_ew_kernel) (sample_state true)).
  - reflexivity.
  - reflexivity.
  - intros i d Hd _.
    destruct i as [|[|[|[|[|i]]]]]; simpl in Hd; try discriminate;
      injection Hd as <-; vm_compute; discriminate.
Defined.

(** The sample group: an element-wise kernel with the output ids 1 and 2,
    and a [DimShuffleKernel]. *)
Lemma compile_all_output_flex_ids_witness :
  exists g', @compile_all reference_runtime sample_group (sample_state true)
             = Ok g' (sample_state true) /\
    group_output_flex_ids g' = Some (concat (map kernel_output_ids (kernels g'))) /\
    (forall id, In id (concat (map kernel_output_ids (kernels g'))) <->
                exists k, In k (kernels g') /\ In id (kernel_output_ids k)) /\
    length (kernels g') = length (@base_compile_all reference_runtime (kernels sample_group)) /\
    map kernel_class (kernels g') =
      map kernel_class (@base_compile_all reference_runtime (kernels sample_group)) /\
    map params (kernels g') =
      map params (@base_compile_all reference_runtime (kernels sample_group)) /\
    (forall k, In k (kernels g') -> kernel_class k = ElementWiseKernel ->
       exists ids, output_flex_ids k = Some ids /\
         ids = omap (fun p => match p with
                              | PFlexScale d =>
                                  if is_output d
                                  then Some (flex_id (entry_of (flex_entry d)
                                                               (sample_state true)))
                                  else None
                              | _ => None
                              end) (params k) /\
         forall id, In id ids <->
           exists d, In (PFlexScale d) (params k) /\ is_output d = true /\
                     flex_id (entry_of (flex_entry d) (sample_state true)) = id) /\
    (forall k, In k (kernels g') -> kernel_class k = DimShuffleKernel ->
       output_flex_ids k = Some []) /\
    (forall k, In k (kernels g') ->
       kernel_class k <> ElementWiseKernel -> kernel_class k <> DimShuffleKernel ->
       In k (@base_compile_all reference_runtime (kernels sample_group))) /\
    (forall id, In id (default [] (group_output_flex_ids g')) <->
       exists k, In k (kernels g') /\
         match kernel_class k with
         | ElementWiseKernel =>
             exists d, In (PFlexScale d) (params k) /\ is_output d = true /\
                       flex_id (entry_of (flex_entry d) (sample_state true)) = id
         | DimShuffleKernel => False
         | _ => exists ids, output_flex_ids k = Some ids /\ In id ids
         end).
Proof.
  apply (@compile_all_output_flex_ids reference_runtime sample_group (sample_state true)).
  intros k [<-|[<-|[]]] He Hd; simpl in *; congruence.
Defined.

Example sample_group_output_flex_ids :
  group_output_flex_ids sample_compiled_group = Some [1%nat; 2%nat].
Proof. reflexivity. Qed.

(** The events of a call of the compiled sample group. *)
Lemma call_event_order_witness :
  exists p,
    new_events (sample_state true)
      (final (@call reference_runtime sample_compiled_group (sample_state true)))
    = [EvCount; EvCount; EvSaveDiagnostic] ++ p /\
    p `prefix_of` kernel_events 0 (kernels sample_compiled_group) /\
    (forall g' st', @call reference_runtime sample_compiled_group (sample_state true)
                    = Ok g' st' ->
                    p = kernel_events 0 (kernels sample_compiled_group)).
Proof.
  exact (@call_event_order reference_runtime sample_compiled_group (sample_state true)).
Defined.

(** Against C6 as the specification words it: in a call of the compiled
    sample group the diagnostic data is saved before the first kernel is set
    up, and the last event is the [manage_after_computation] of the last
    kernel. *)
Lemma diagnostics_saved_before_kernels :
  let st' := final (@call reference_runtime sample_compiled_group (sample_state true)) in
  (exists g', @call reference_runtime sample_compiled_group (sample_state true) = Ok g' st') /\
  new_events (sample_state true) st' =
    [EvCount; EvCount; EvSaveDiagnostic;
     EvManageBefore 0; EvBindFlexScales 0; EvExecute 0; EvManageAfter 0;
     EvManageBefore 1; EvBindFlexScales 1; EvExecute 1; EvManageAfter 1] /\
  last (new_events (sample_state true) st') <> Some EvSaveDiagnostic.
Proof.
  vm_compute. split; [eexists; reflexivity|]. split; [reflexivity|discriminate].
Defined.

(** A transform on a fresh manager, a second one, and a group call before
    any. *)
Lemma allocate_once_before_execution_witness :
  (forall ordered_ops name st ret_val st1,
     @base_transform_ordered_ops reference_runtime ordered_ops name st = Ok ret_val st1 ->
     (allocated (flex_manager st1) = false ->
      @transform_ordered_ops reference_runtime ordered_ops name st =
        Ok ret_val (mkState (set_allocated true (flex_manager st1)) (device st1)
                            (trace st1 ++ [EvAllocate]))) /\
     (allocated (flex_manager st1) = true ->
      @transform_ordered_ops reference_runtime ordered_ops name st =
        Raise FatalError (mkState (flex_manager st1) (device st1)
                                  (trace st1 ++ [EvAllocate])))) /\
  (forall st, allocated (flex_manager st) = true ->
     allocate st = Raise FatalError (mkState (flex_manager st) (device st)
                                             (trace st ++ [EvAllocate]))) /\
  (forall g st, allocated (flex_manager st) = false ->
     (forall i, ~ In (EvExecute i) (new_events st (final (@call reference_runtime g st)))) /\
     (kernels g <> [] -> exists st', @call reference_runtime g st = Raise FatalError st')).
Proof.
  apply (@allocate_once_before_execution reference_runtime
           (proj2 (proj2 (reference_hooks to_nearest)))).
Defined.

Example transform_then_transform_again :
  let r1 := @transform_ordered_ops reference_runtime ["op"%string] "comp"%string
              (sample_state false) in
  trace (final r1) = [EvBaseTransform; EvAllocate] /\
  allocated (flex_manager (final r1)) = true /\
  (exists st2, @transform_ordered_ops reference_runtime ["op"%string] "comp"%string (final r1)
               = Raise FatalError st2) /\
  (exists st2, @call reference_runtime sample_compiled_group (sample_state false)
               = Raise FatalError st2 /\
               new_events (sample_state false) st2
               = [EvCount; EvCount; EvSaveDiagnostic; EvManageBefore 0]).
Proof.
  vm_compute. repeat split; eexists; try split; reflexivity.
Qed.

(** Against C8 as the specification words it: the constructor takes no dtype
    and returns a transformer; [float32], which is not a flex format, is
    rejected only when [storage_dtype] is asked for it. *)
Lemma construction_does_not_check_dtype :
  exists tr st',
    __init__ false false (sample_state false) = Ok tr st' /\
    storage_dtype (OtherDtype "float32") st' = Raise NotImplementedError st'.
Proof. vm_compute. eexists. eexists. split; reflexivity. Defined.

(** * Further properties *)

Section WriteProperties.
Context {RT : FlexRuntime}.

Lemma py_min_cases a b : (py_min a b = b /\ (b < a)%Q) \/ (py_min a b = a /\ (a <= b)%Q).
Proof.
  unfold py_min. destruct (Qltb b a) eqn:H.
  - left. split; [reflexivity|now apply Qltb_true].
  - right. split; [reflexivity|now apply Qltb_false].
Qed.

Lemma py_max_cases a b : (py_max a b = b /\ (a < b)%Q) \/ (py_max a b = a /\ (b <= a)%Q).
Proof.
  unfold py_max. destruct (Qltb a b) eqn:H.
  - left. split; [reflexivity|now apply Qltb_true].
  - right. split; [reflexivity|now apply Qltb_false].
Qed.

Lemma Qle_bool_cases a b : (Qle_bool a b = true /\ (a <= b)%Q) \/ (Qle_bool a b = false /\ (b < a)%Q).
Proof.
  destruct (Qle_bool a b) eqn:H.
  - left. split; [reflexivity|now apply Qle_bool_iff].
  - right. split; [reflexivity|now apply Qle_bool_false].
Qed.

Lemma Qltb_cases a b : (Qltb a b = true /\ (a < b)%Q) \/ (Qltb a b = false /\ (b <= a)%Q).
Proof.
  destruct (Qltb a b) eqn:H.
  - left. split; [reflexivity|now apply Qltb_true].
  - right. split; [reflexivity|now apply Qltb_false].
Qed.

Ltac no_comparison_in t :=
  lazymatch t with
  | context [Qltb _ _] => fail
  | context [Qle_bool _ _] => fail
  | _ => idtac
  end.

Ltac split_comparisons :=
  repeat match goal with
         | |- context [Qle_bool ?a ?b] =>
             no_comparison_in a; no_comparison_in b;
             let E := fresh "E" in let H := fresh "H" in
             destruct (Qle_bool_cases a b) as [[E H]|[E H]];
             rewrite E in *; cbv iota in *
         | |- context [Qltb ?a ?b] =>
             no_comparison_in a; no_comparison_in b;
             let E := fresh "E" in let H := fresh "H" in
             destruct (Qltb_cases a b) as [[E H]|[E H]];
             rewrite E in *; cbv iota in *
         end.

(** X1. Clipping is idempotent: a value that has been clipped, scalar or
    array, is not changed by the same clip, whatever the bounds as long as
    the lower one is not above the upper one. *)
Theorem clip_idempotent maxval minval v :
  minval <= maxval ->
  clip maxval minval (clip maxval minval v) = clip maxval minval v.
Proof.
  intros Hb. rewrite Zle_Qle in Hb.
  destruct v as [q|a]; simpl; f_equal.
  - unfold py_min, py_max. split_comparisons; solve [reflexivity | lra].
  - rewrite !map_map. apply map_ext. intros q.
    split_comparisons; solve [reflexivity | lra].
Qed.

Lemma py_int_inject_Z n : py_int (inject_Z n) = n.
Proof. unfold py_int, inject_Z. simpl. apply Z.quot_1_r. Qed.

(** The log of a write that returns. *)
Lemma setitem_ok_events t key value st st' :
  setitem t key value st = Ok tt st' ->
  exists q, amax_absolute (clipped t value st) = Some q /\
    new_events st st' =
      [EvEntryBefore (tensor_flex_entry t) value; EvStore (tensor_id t);
       EvEntryAfter (tensor_flex_entry t) (py_int q) (autoflex_count (flex_manager st))].
Proof.
  intros Hset.
  pose proof (setitem_cases t key value st) as Hcase.
  rewrite Hset in Hcase. inversion Hcase as [| | |new m Hnz Hb Hm Hst']. subst st'.
  exists m. split; [exact Hm|].
  unfold new_events. simpl. rewrite <- !app_assoc. apply drop_trace.
Qed.

(** X2. A scalar write whose quotient by the scale is above the range
    reports the upper bound [2^bits - 1] to [manage_after_computation], and
    one whose quotient is below the range reports [2^bits], the magnitude of
    the lower bound: the overflow itself is not reported. *)
Theorem overflowing_write_reports_bound t key v st st' :
  let id := tensor_flex_entry t in
  let e := entry_before t (Scalar v) st in
  let count := autoflex_count (flex_manager st) in
  setitem t key (Scalar v) st = Ok tt st' ->
  ((inject_Z (2 ^ clip_bits e - 1) < v / scale e)%Q ->
   new_events st st' =
     [EvEntryBefore id (Scalar v); EvStore (tensor_id t);
      EvEntryAfter id (2 ^ clip_bits e - 1) count]) /\
  ((v / scale e < inject_Z (- 2 ^ clip_bits e))%Q ->
   new_events st st' =
     [EvEntryBefore id (Scalar v); EvStore (tensor_id t);
      EvEntryAfter id (2 ^ clip_bits e) count]).
Proof.
  intros id e count Hset.
  destruct (setitem_ok_events t key (Scalar v) st st' Hset) as (q & Hq & Hev).
  pose proof (pow_clip_bits_pos e) as Hpos.
  pose proof (inject_Z_ge_1 _ Hpos) as H1.
  unfold clipped in Hq. fold e in Hq. simpl in Hq. injection Hq as <-.
  generalize dependent (v / scale e)%Q. intros x Hev.
  split; intros Hover; rewrite Hev; fold id count.
  - rewrite inject_Z_pred in Hover.
    destruct (Qle_bool_cases 0 x) as [[-> H0]|[-> H0]]; [|exfalso; lra].
    destruct (py_min_cases x (inject_Z (2 ^ clip_bits e - 1)))
      as [[-> _]|[-> Hle]]; [|rewrite inject_Z_pred in Hle; exfalso; lra].
    change (Qabs (inject_Z (2 ^ clip_bits e - 1)))
      with (inject_Z (Z.abs (2 ^ clip_bits e - 1))).
    rewrite py_int_inject_Z. now rewrite Z.abs_eq by lia.
  - rewrite inject_Z_neg in Hover.
    destruct (Qle_bool_cases 0 x) as [[-> H0]|[-> H0]]; [exfalso; lra|].
    destruct (py_max_cases x (inject_Z (- 2 ^ clip_bits e)))
      as [[-> _]|[-> Hle]]; [|rewrite inject_Z_neg in Hle; exfalso; lra].
    change (Qabs (inject_Z (- 2 ^ clip_bits e)))
      with (inject_Z (Z.abs (- 2 ^ clip_bits e))).
    rewrite py_int_inject_Z. now rewrite Z.abs_neq, Z.opp_involutive by lia.
Qed.

(** X3. A write of an empty array never completes and never reaches
    [manage_after_computation]: when the scale is not zero it raises, before
    the store when the base class rejects the value and after it when
    [np.amax] finds nothing to reduce; the hook before the computation has
    run in both cases. *)
Theorem empty_array_write_raises t key st :
  ~ (scale (entry_before t (NdArray []) st) == 0)%Q ->
  exists e st',
    setitem t key (NdArray []) st = Raise e st' /\
    (new_events st st' = [EvEntryBefore (tensor_flex_entry t) (NdArray [])] \/
     new_events st st' = [EvEntryBefore (tensor_flex_entry t) (NdArray []);
                          EvStore (tensor_id t)]).
Proof.
  intros Hnz.
  destruct (setitem_cases t key (NdArray []) st) as [Hs|Hs Hb|new Hs Hb Hm|new m Hs Hb Hm].
  - contradiction.
  - eexists. eexists. split; [reflexivity|]. left.
    unfold new_events. simpl. apply drop_trace.
  - eexists. eexists. split; [reflexivity|]. right.
    unfold new_events. simpl. rewrite <- app_assoc. apply drop_trace.
  - discriminate Hm.
Qed.

End WriteProperties.

Section BindingProperties.
Context {RT : FlexRuntime}.

Lemma scale_info_from_sorted n ps : Sorted lt (map fst (scale_info_from n ps)).
Proof.
  revert n. induction ps as [|p ps IH]; intros n; simpl; [constructor|].
  destruct p; simpl; try apply IH.
  constructor; [apply IH|].
  pose proof (scale_info_from_ge (S n) ps) as Hge.
  destruct (map fst (scale_info_from (S n) ps)) as [|j l]; constructor.
  specialize (Hge j (or_introl eq_refl)). lia.
Qed.

(** X4. The [flex_scale_info] that compilation records for a parameter list
    holds the pair [(i, d)] exactly when slot [i] of the list is the
    descriptor [d]; the indices are recorded in increasing order, each one
    once. *)
Theorem flex_scale_info_records_descriptor_slots ps :
  (forall (i : nat) d,
     In (i, d) (scale_info_from 0 ps) <-> ps !! i = Some (PFlexScale d)) /\
  Sorted lt (map fst (scale_info_from 0 ps)).
Proof.
  split; [|apply scale_info_from_sorted].
  intros i d. rewrite scale_info_from_In. split.
  - intros (j & -> & Hj). exact Hj.
  - intros Hi. exists i. auto.
Qed.

(** When the binding loop returns, every recorded index was a slot and no
    output scale was zero. *)
Lemma bind_scales_Ok_conditions info : forall ps st ps1 st1,
  bind_scales info ps st = Ok ps1 st1 ->
  forall i d, In (i, d) info ->
    (i < length ps)%nat /\
    (is_output d = true -> ~ (scale (entry_of (flex_entry d) st) == 0)%Q).
Proof.
  induction info as [|[index desc] rest IH]; intros ps st ps1 st1 Hrun i d Hin;
    [destruct Hin|].
  simpl in Hrun. unfold mbind, M_bind, get_entry in Hrun.
  assert (Hhead : (index < length ps)%nat /\
                  (is_output desc = true ->
                   ~ (scale (entry_of (flex_entry desc) st) == 0)%Q) /\
                  exists s, bind_scales rest (<[index := PFloat s]> ps) st = Ok ps1 st1).
  { destruct (is_output desc).
    - destruct (Qeq_bool (scale (entry_of (flex_entry desc) st)) 0) eqn:Hz;
        [discriminate|].
      unfold mret, M_ret in Hrun.
      destruct (bool_decide (index < length ps)%nat) eqn:Hlt; [|discriminate].
      apply bool_decide_eq_true in Hlt. split; [exact Hlt|]. split; [|eauto].
      intros _ H0. apply Qeq_bool_iff in H0. congruence.
    - unfold mret, M_ret in Hrun.
      destruct (bool_decide (index < length ps)%nat) eqn:Hlt; [|discriminate].
      apply bool_decide_eq_true in Hlt. split; [exact Hlt|]. split; [discriminate|eauto]. }
  destruct Hhead as (Hlt & Hnz & s & Hrest).
  destruct Hin as [[= <- <-]|Hin]; [now split|].
  specialize (IH _ _ _ _ Hrest i d Hin). now rewrite length_insert in IH.
Qed.

(** X5. Binding is idempotent: when the loop of [_ew_bind_flex_scales] over
    the recorded slots of a kernel has returned a parameter list, running it
    again on that list, the scales being what they were, returns the same
    list. *)
Theorem bind_scales_idempotent ps0 ps st ps1 st1 :
  bind_scales (scale_info_from 0 ps0) ps st = Ok ps1 st1 ->
  bind_scales (scale_info_from 0 ps0) ps1 st = Ok ps1 st.
Proof.
  intros Hrun.
  pose proof (bind_scales_Ok_conditions _ _ _ _ _ Hrun) as Hcond.
  destruct (bind_scales_spec _ ps st (scale_info_from_NoDup 0 ps0) Hcond)
    as (ps1' & Hrun1 & Hlen1 & Hin1 & Hout1).
  rewrite Hrun in Hrun1. injection Hrun1 as <- ->.
  destruct (bind_scales_spec (scale_info_from 0 ps0) ps1 st (scale_info_from_NoDup 0 ps0))
    as (ps2 & Hrun2 & Hlen2 & Hin2 & Hout2).
  { intros i d Hid. rewrite Hlen1. now apply Hcond. }
  rewrite Hrun2. f_equal. apply list_eq. intros j.
  destruct (in_dec Nat.eq_dec j (map fst (scale_info_from 0 ps0))) as [Hj|Hj].
  - apply in_map_iff in Hj as ([j' d] & <- & Hd). simpl.
    now rewrite (Hin2 _ _ Hd), (Hin1 _ _ Hd).
  - now apply Hout2.
Qed.

Lemma no_descriptor_no_info ps :
  (forall (i : nat) d, ps !! i <> Some (PFlexScale d)) ->
  forall n st, scale_info_from n ps = [] /\ ew_output_ids ps st = [].
Proof.
  induction ps as [|p ps IH]; intros Hno n st; [now split|].
  assert (Htail : forall (i : nat) d, ps !! i <> Some (PFlexScale d))
    by (intros i d; apply (Hno (S i) d)).
  destruct p as [d| | |]; simpl; try now apply IH.
  now destruct (Hno 0%nat d).
Qed.

(** X6. Binding consumes the descriptors: in the parameter list that the
    binding loop returns for the recorded slots of a list, no slot holds a
    [FlexScaleDescription] any more, so that computing the output ids or
    the scale info from it finds nothing.  Compilation has to come before the
    first call. *)
Theorem bound_params_hold_no_descriptor ps st ps1 st1 :
  bind_scales (scale_info_from 0 ps) ps st = Ok ps1 st1 ->
  (forall (i : nat) d, ps1 !! i <> Some (PFlexScale d)) /\
  scale_info_from 0 ps1 = [] /\
  ew_output_ids ps1 st = [].
Proof.
  intros Hrun.
  pose proof (bind_scales_Ok_conditions _ _ _ _ _ Hrun) as Hcond.
  destruct (bind_scales_spec _ ps st (scale_info_from_NoDup 0 ps) Hcond)
    as (ps1' & Hrun1 & Hlen1 & Hin1 & Hout1).
  rewrite Hrun in Hrun1. injection Hrun1 as <- ->.
  assert (Hno : forall (i : nat) d, ps1 !! i <> Some (PFlexScale d)).
  { intros i d Hi.
    destruct (in_dec Nat.eq_dec i (map fst (scale_info_from 0 ps))) as [Hj|Hj].
    - apply in_map_iff in Hj as ([j' d'] & <- & Hd). simpl in Hi.
      rewrite (Hin1 _ _ Hd) in Hi. discriminate.
    - rewrite (Hout1 i Hj) in Hi. apply Hj.
      apply in_map_iff. exists (i, d). split; [reflexivity|].
      apply scale_info_from_In. exists i. auto. }
  split; [exact Hno|]. now apply no_descriptor_no_info.
Qed.

End BindingProperties.

Section GroupProperties.
Context {RT : FlexRuntime}.

Lemma create_output_flex_ids_loop_cases ks : forall acc st,
  (flex_kernels_have_output_ids ks /\
   exists r, create_output_flex_ids_loop ks acc st = Ok r st) \/
  (~ flex_kernels_have_output_ids ks /\
   create_output_flex_ids_loop ks acc st = Raise AttributeError st).
Proof.
  induction ks as [|k ks IH]; intros acc st.
  - left. split; [intros k []|]. eexists. reflexivity.
  - simpl. unfold mbind, M_bind.
    destruct (output_flex_ids (with_output_flex_ids k st)) as [ids|] eqn:Hk.
    + destruct (IH (acc ++ ids) st) as [(Hall & r & ->)|(Hnot & ->)].
      * left. split; [|eexists; reflexivity].
        intros k' [<-|Hin] He Hd; [|now apply Hall].
        unfold with_output_flex_ids in Hk.
        destruct (kernel_class k); simpl in Hk; congruence.
      * right. split; [|reflexivity].
        intros Hall. apply Hnot. intros k' Hin. apply Hall. now right.
    + right. split; [|reflexivity].
      intros Hall. apply (with_output_flex_ids_some k st); [|exact Hk].
      apply Hall. now left.
Qed.

(** X7. [compile_all] either returns, leaving the state as it is, or raises
    [AttributeError], leaving the state as it is; it returns exactly when
    every kernel that is neither an [ElementWiseKernel] nor a
    [DimShuffleKernel] brings its own [output_flex_ids]. *)
Theorem compile_all_returns_iff g st :
  ((exists g', compile_all g st = Ok g' st) \/
   compile_all g st = Raise AttributeError st) /\
  ((exists g' st', compile_all g st = Ok g' st') <->
   flex_kernels_have_output_ids (base_compile_all (kernels g))).
Proof.
  unfold compile_all, _create_output_flex_ids. unfold mbind, M_bind. cbn [kernels].
  destruct (create_output_flex_ids_loop_cases (base_compile_all (kernels g)) [] st)
    as [(Hall & r & ->)|(Hnot & ->)].
  - split; [left; eexists; reflexivity|]. split; [auto|]. intros _.
    eexists. eexists. reflexivity.
  - split; [now right|]. split; [intros (g' & st' & H); discriminate|].
    intros Hall. now destruct Hnot.
Qed.

(** Whatever [_create_ew_flex_scale_info] returns is ready to be bound. *)
Lemma ew_flex_scale_info_ready g :
  Forall ew_ready (kernels (_create_ew_flex_scale_info g)).
Proof.
  unfold _create_ew_flex_scale_info. simpl. apply List.Forall_forall.
  intros k Hk. apply in_map_iff in Hk as (k0 & <- & _).
  destruct (isinstance (kernel_class k0) [ElementWiseKernel]) eqn:Hc.
  - intros _. eexists. split; [reflexivity|].
    intros i d Hid. simpl. apply scale_info_from_In in Hid as (j & -> & Hj).
    now apply lookup_lt_Some in Hj.
  - intros He. unfold isinstance in Hc. apply bool_decide_eq_false in Hc.
    destruct Hc. rewrite He. set_solver.
Qed.

Lemma compile_all_ready g st g1 st1 :
  compile_all g st = Ok g1 st1 -> Forall ew_ready (kernels g1).
Proof.
  unfold compile_all, _create_output_flex_ids. unfold mbind, M_bind. cbn [kernels].
  destruct (create_output_flex_ids_loop _ _ _) as [r st'|e st']; [|discriminate].
  intros [= <- _]. apply ew_flex_scale_info_ready.
Qed.

Lemma bind_scales_succeeds info : forall ps st,
  (forall i d, In (i, d) info ->
     (i < length ps)%nat /\
     (is_output d = true -> ~ (scale (entry_of (flex_entry d) st) == 0)%Q)) ->
  exists ps', bind_scales info ps st = Ok ps' st /\ length ps' = length ps.
Proof.
  induction info as [|[index desc] rest IH]; intros ps st Hok; simpl.
  - now exists ps.
  - destruct (Hok index desc (or_introl eq_refl)) as [Hlt Hnz].
    unfold mbind, M_bind, get_entry.
    assert (Hs : exists s,
      (if is_output desc
       then if Qeq_bool (scale (entry_of (flex_entry desc) st)) 0
            then raise ZeroDivisionError
            else mret (1 / scale (entry_of (flex_entry desc) st))%Q
       else mret (scale (entry_of (flex_entry desc) st))) st = Ok s st).
    { destruct (is_output desc); [|eexists; reflexivity].
      destruct (Qeq_bool (scale (entry_of (flex_entry desc) st)) 0) eqn:Hz;
        [|eexists; reflexivity].
      apply Qeq_bool_iff in Hz. now destruct Hnz. }
    destruct Hs as (s & ->). rewrite bool_decide_eq_true_2 by exact Hlt.
    destruct (IH (<[index := PFloat s]> ps) st) as (ps' & Hrun & Hlen).
    { intros i d Hid. rewrite length_insert. apply Hok. now right. }
    exists ps'. split; [exact Hrun|]. now rewrite length_insert in Hlen.
Qed.

(** A kernel that is ready binds, and is ready afterwards. *)
Lemma bind_flex_scales_ready :
  bind_ptr_keeps_length RT -> kernel_bind_keeps_class RT ->
  forall k st, ew_ready k -> scales_nonzero (flex_manager st) ->
  exists k', bind_flex_scales k st = Ok k' st /\ ew_ready k'.
Proof.
  intros Hlen Hclass k st Hready Hnz. unfold bind_flex_scales, isinstance.
  destruct (bool_decide (kernel_class k ∈ [ElementWiseKernel])) eqn:Hc.
  - apply bool_decide_eq_true in Hc. apply list_elem_of_singleton in Hc.
    destruct (Hready Hc) as (info & Hinfo & Hidx).
    unfold _ew_bind_flex_scales. rewrite Hinfo.
    destruct (bind_scales_succeeds info (params k) st) as (ps' & Hrun & Hlen').
    { intros i d Hid. split; [now apply (Hidx i d)|]. intros _. apply Hnz. }
    unfold mbind, M_bind. rewrite Hrun. eexists. split; [reflexivity|].
    intros _. exists info. split; [exact Hinfo|].
    intros i d Hid. simpl. rewrite Hlen, Hlen'. now apply (Hidx i d).
  - eexists. split; [reflexivity|].
    intros He. rewrite Hclass in He.
    apply bool_decide_eq_false in Hc. destruct Hc. rewrite He. set_solver.
Qed.

Lemma run_kernel_ready :
  manager_hooks_keep_allocated RT -> manager_hooks_keep_scales_nonzero RT ->
  manager_hooks_keep_count RT ->
  bind_ptr_keeps_length RT -> kernel_bind_keeps_class RT ->
  forall i k st,
  ew_ready k -> allocated (flex_manager st) = true -> scales_nonzero (flex_manager st) ->
  exists k' st', run_kernel i k st = Ok k' st' /\ ew_ready k' /\ call_keeps st st'.
Proof.
  intros (Ha1 & Ha2 & _) (Hz1 & Hz2 & _) (Hc1 & Hc2 & _) Hlen Hclass i k st Hready Ha Hnz.
  unfold run_kernel, setup_kernel_execute, after_kernel_execute, execute,
    manage_before_computation, manage_after_computation.
  unfold mbind, M_bind, log, get_manager, put_manager, get_device, put_device, raise.
  simpl. rewrite Ha. simpl.
  destruct (bind_flex_scales_ready Hlen Hclass k
              (mkState (manager_manage_before_computation k (flex_manager st)) (device st)
                       ((trace st ++ [EvManageBefore i]) ++ [EvBindFlexScales i]))
              Hready) as (k' & -> & Hready').
  { simpl. now apply Hz1. }
  simpl. rewrite Ha1, Ha. eexists. eexists. split; [reflexivity|].
  split; [exact Hready'|]. unfold call_keeps. simpl.
  rewrite Ha2, Ha1, Hc2, Hc1. repeat split; auto.
Qed.

Lemma base_call_ready :
  manager_hooks_keep_allocated RT -> manager_hooks_keep_scales_nonzero RT ->
  manager_hooks_keep_count RT ->
  bind_ptr_keeps_length RT -> kernel_bind_keeps_class RT ->
  forall ks i st,
  Forall ew_ready ks -> allocated (flex_manager st) = true ->
  scales_nonzero (flex_manager st) ->
  exists ks' st', base_call i ks st = Ok ks' st' /\
    Forall ew_ready ks' /\ length ks' = length ks /\ call_keeps st st'.
Proof.
  intros Ha Hz Hc Hlen Hclass ks.
  induction ks as [|k rest IH]; intros i st Hready Hal Hnz.
  - exists [], st. repeat split; auto.
  - inversion Hready as [|? ? Hk Hrest]; subst.
    destruct (run_kernel_ready Ha Hz Hc Hlen Hclass i k st Hk Hal Hnz)
      as (k' & st1 & Hrun & Hk' & Hal1 & Hnz1 & Hcount1).
    destruct (IH (S i) st1 Hrest Hal1 Hnz1)
      as (rest' & st2 & Hrun2 & Hrest' & Hlen2 & Hal2 & Hnz2 & Hcount2).
    exists (k' :: rest'), st2. rewrite base_call_cons, Hrun, Hrun2.
    split; [reflexivity|]. split; [now constructor|]. split; [simpl; congruence|].
    repeat split; auto. congruence.
Qed.

(** X8. A compiled group can be called any number of times: on a manager
    that is allocated and has no zero scale, [n] calls in a row of a group
    that [compile_all] returned all return; the cycle counter has advanced
    by [2 * n], and the group keeps its name, its [output_flex_ids] and the
    number of its kernels. *)
Theorem compiled_group_can_be_called :
  manager_hooks_keep_allocated RT -> manager_hooks_keep_scales_nonzero RT ->
  manager_hooks_keep_count RT ->
  bind_ptr_keeps_length RT -> kernel_bind_keeps_class RT ->
  forall g st0 g1 st1, compile_all g st0 = Ok g1 st1 ->
  forall n st,
  allocated (flex_manager st) = true -> scales_nonzero (flex_manager st) ->
  exists g' st', calls n g1 st = Ok g' st' /\
    autoflex_count (flex_manager st') = autoflex_count (flex_manager st) + 2 * Z.of_nat n /\
    group_name g' = group_name g1 /\
    group_output_flex_ids g' = group_output_flex_ids g1 /\
    length (kernels g') = length (kernels g1).
Proof.
  intros Ha Hz Hc Hlen Hclass g st0 g1 st1 Hcompile n.
  pose proof (compile_all_ready _ _ _ _ Hcompile) as Hready.
  clear Hcompile. revert g1 Hready.
  induction n as [|n IH]; intros g1 Hready st Hal Hnz.
  - exists g1, st. simpl. repeat split; auto. lia.
  - assert (Hal0 : allocated (flex_manager (state_entered st)) = true)
      by (simpl; destruct Ha as (_ & _ & Hs); now rewrite Hs).
    assert (Hnz0 : scales_nonzero (flex_manager (state_entered st)))
      by (simpl; destruct Hz as (_ & _ & Hs); now apply Hs).
    destruct (base_call_ready Ha Hz Hc Hlen Hclass (kernels g1) 0 (state_entered st)
                Hready Hal0 Hnz0)
      as (ks' & st2 & Hrun & Hready' & Hlen' & Hal2 & Hnz2 & Hcount2).
    destruct (IH (mkFlexGPUKernelGroup (group_name g1) ks' (group_output_flex_ids g1))
                Hready' st2 Hal2 Hnz2)
      as (g' & st' & Hcalls & Hcount & Hname & Hids & Hlen2).
    exists g', st'. simpl. unfold mbind, M_bind. rewrite call_eq, Hrun.
    split; [exact Hcalls|]. split; [|repeat split; simpl in *; congruence].
    rewrite Hcount, Hcount2. simpl.
    destruct Hc as (_ & _ & Hs). rewrite Hs. simpl. lia.
Qed.

End GroupProperties.

Section NamingProperties.

Lemma string_of_uint_no_underscore d :
  no_underscore (NilEmpty.string_of_uint d).
Proof. induction d; simpl; auto; split; auto; discriminate. Qed.

Lemma py_str_no_underscore n : no_underscore (py_str n).
Proof. apply string_of_uint_no_underscore. Qed.

Lemma py_str_nonempty n : py_str n <> EmptyString.
Proof.
  unfold py_str. intros H.
  assert (Hnil : Nat.to_uint n = Decimal.Nil)
    by (destruct (Nat.to_uint n); simpl in H; solve [reflexivity | discriminate]).
  pose proof (DecimalNat.Unsigned.of_to n) as Hn. rewrite Hnil in Hn.
  simpl in Hn. subst n. discriminate.
Qed.

Lemma py_str_inj n m : py_str n = py_str m -> n = m.
Proof.
  unfold py_str. intros H.
  assert (Hu : Some (Nat.to_uint n) = Some (Nat.to_uint m))
    by (rewrite <- !NilEmpty.usu; now rewrite H).
  injection Hu as Hu.
  rewrite <- (DecimalNat.Unsigned.of_to n), <- (DecimalNat.Unsigned.of_to m).
  now rewrite Hu.
Qed.

Lemma append_cancel_l p s s' : (p +:+ s = p +:+ s')%string -> s = s'.
Proof. induction p as [|c p IH]; simpl; [auto|]. intros [= H]. auto. Qed.

(** A string without the separator stops at the first separator. *)
Lemma separator_splits p q s s' :
  no_underscore p -> no_underscore q ->
  p +:+ "_" +:+ s = q +:+ "_" +:+ s' -> p = q /\ s = s'.
Proof.
  revert q. induction p as [|c p IH]; intros [|c' q] Hp Hq Heq; cbn in Heq.
  - injection Heq as Heq. auto.
  - injection Heq as Hc _. subst c'. now destruct Hq.
  - injection Heq as Hc _. subst c. now destruct Hp.
  - injection Heq as Hc Heq. subst c'. destruct Hp as [_ Hp], Hq as [_ Hq].
    destruct (IH q Hp Hq Heq) as [-> ->]. auto.
Qed.

Lemma separator_absent p q s : no_underscore p -> p <> q +:+ "_" +:+ s.
Proof.
  intros Hp H. subst p. induction q as [|c q IH]; simpl in Hp.
  - now destruct Hp.
  - destruct Hp as [_ Hp]. auto.
Qed.

Lemma join_underscore_cons p q rest :
  join_underscore (p :: q :: rest) = p +:+ "_" +:+ join_underscore (q :: rest).
Proof. reflexivity. Qed.

Lemma join_underscore_nonempty p rest :
  p <> EmptyString -> join_underscore (p :: rest) <> EmptyString.
Proof.
  intros Hp. destruct rest; simpl; [exact Hp|].
  destruct p; [congruence|discriminate].
Qed.

Lemma join_underscore_inj l1 : forall l2,
  Forall (fun p => no_underscore p /\ p <> EmptyString) l1 ->
  Forall (fun p => no_underscore p /\ p <> EmptyString) l2 ->
  join_underscore l1 = join_underscore l2 -> l1 = l2.
Proof.
  induction l1 as [|p l1 IH]; intros [|q l2] H1 H2 Heq.
  - reflexivity.
  - inversion H2 as [|? ? [_ Hq] _]; subst.
    symmetry in Heq. now apply join_underscore_nonempty in Heq.
  - inversion H1 as [|? ? [_ Hp] _]; subst.
    now apply join_underscore_nonempty in Heq.
  - inversion H1 as [|? ? [Hp Hpe] H1']; subst.
    inversion H2 as [|? ? [Hq Hqe] H2']; subst.
    destruct l1 as [|p' l1], l2 as [|q' l2].
    + simpl in Heq. now subst.
    + rewrite join_underscore_cons in Heq.
      change (join_underscore [p]) with p in Heq.
      now apply separator_absent in Heq.
    + rewrite join_underscore_cons in Heq.
      change (join_underscore [q]) with q in Heq. symmetry in Heq.
      now apply separator_absent in Heq.
    + rewrite !join_underscore_cons in Heq.
      apply separator_splits in Heq as [-> Heq]; [|assumption..].
      f_equal. now apply IH.
Qed.

(** X9. For one tensor description name, [create_device_tensor] gives
    tensors of different shapes different names. *)
Theorem device_tensor_name_injective_in_shape name shape1 shape2 :
  device_tensor_name name shape1 = device_tensor_name name shape2 -> shape1 = shape2.
Proof.
  unfold device_tensor_name. intros H.
  apply append_cancel_l, append_cancel_l, append_cancel_l in H.
  assert (Hparts : forall shape,
    Forall (fun p => no_underscore p /\ p <> EmptyString) (map py_str shape)).
  { intros shape. apply List.Forall_forall. intros p Hp.
    apply in_map_iff in Hp as (n & <- & _).
    split; [apply py_str_no_underscore|apply py_str_nonempty]. }
  apply join_underscore_inj in H; [|apply Hparts..].
  revert shape2 H. induction shape1 as [|n s1 IH]; intros [|m s2] H; simpl in H;
    try discriminate; [reflexivity|].
  injection H as Hn Hs. f_equal; [now apply py_str_inj|now apply IH].
Qed.

Lemma append_assoc (a b c : string) : (a +:+ b) +:+ c = a +:+ (b +:+ c).
Proof.
  induction a as [|x a IH]; [reflexivity|].
  change (String x ((a +:+ b) +:+ c) = String x (a +:+ (b +:+ c))).
  now rewrite IH.
Qed.

(** X10. The names are not unique across descriptions: a description whose
    name ends in an underscore and a number has, for every shape that is not
    empty, the name of the description without that ending and with the
    number put in front of the shape. *)
Theorem device_tensor_name_collision name d dim shape :
  device_tensor_name (name +:+ "_" +:+ py_str d) (dim :: shape) =
  device_tensor_name name (d :: dim :: shape).
Proof.
  unfold device_tensor_name. cbn [map]. rewrite join_underscore_cons.
  now rewrite !append_assoc.
Qed.

End NamingProperties.

Section DataSetProperties.

#[local] Instance char_le_total : Total char_le.
Proof. intros a b. unfold char_le. lia. Qed.

#[local] Instance char_le_trans : Transitive char_le.
Proof. intros a b c. unfold char_le. lia. Qed.

#[local] Instance char_le_antisymm : AntiSymm (=) char_le.
Proof.
  intros a b Hab Hba. unfold char_le in *.
  rewrite <- (ascii_nat_embedding a), <- (ascii_nat_embedding b).
  f_equal. lia.
Qed.

Lemma sorted_set_spec tokens :
  Sorted char_le (sorted_set tokens) /\
  NoDup (sorted_set tokens) /\
  (forall c, c ∈ sorted_set tokens <-> c ∈ tokens).
Proof.
  unfold sorted_set. split; [apply Sorted_merge_sort; apply _|]. split.
  - rewrite merge_sort_Permutation. apply NoDup_remove_dups.
  - intros c. rewrite merge_sort_Permutation. apply elem_of_remove_dups.
Qed.

Lemma remove_dups_NoDup (l : list ascii) : NoDup l -> remove_dups l = l.
Proof.
  induction 1 as [|x l Hx Hl IH]; simpl; [reflexivity|].
  case_decide; [contradiction|]. now rewrite IH.
Qed.

(** The sorted set of a vocabulary is that vocabulary. *)
Lemma sorted_set_fixed tokens : sorted_set (sorted_set tokens) = sorted_set tokens.
Proof.
  destruct (sorted_set_spec tokens) as (Hs & Hnd & _).
  unfold sorted_set at 1. rewrite (remove_dups_NoDup _ Hnd).
  apply (Sorted_unique char_le).
  - apply Sorted_merge_sort; apply _.
  - exact Hs.
  - apply merge_sort_Permutation.
Qed.

Lemma dict_list_to_map {K V} `{Countable K} (pairs : list (K * V)) :
  dict pairs = list_to_map (reverse pairs).
Proof.
  unfold dict, list_to_map. generalize (∅ : gmap K V).
  induction pairs as [|p pairs IH]; intros m; simpl; [reflexivity|].
  now rewrite IH, reverse_cons, foldr_snoc.
Qed.

Lemma lookup_dict {K V} `{Countable K} (pairs : list (K * V)) k v :
  NoDup (pairs.*1) -> dict pairs !! k = Some v <-> (k, v) ∈ pairs.
Proof.
  intros Hnd. rewrite dict_list_to_map, <- elem_of_list_to_map.
  - apply elem_of_reverse.
  - now rewrite fmap_reverse, reverse_Permutation.
Qed.

Lemma imap_keys_tokens (v : list ascii) : (imap (fun i t => (t, i)) v).*1 = v.
Proof.
  apply list_eq. intros i. rewrite list_lookup_fmap, list_lookup_imap.
  now destruct (v !! i).
Qed.

Lemma imap_keys_indices (v : list ascii) :
  (imap (fun i t => (i, t)) v).*1 = seq 0 (length v).
Proof.
  apply list_eq. intros i. rewrite list_lookup_fmap, list_lookup_imap.
  destruct (v !! i) eqn:Hi; simpl.
  - symmetry. apply lookup_seq. split; [reflexivity|]. now apply lookup_lt_Some in Hi.
  - symmetry. apply lookup_seq_ge. now apply lookup_ge_None.
Qed.

Lemma lookup_token_to_index v t i :
  NoDup v -> make_token_to_index v !! t = Some i <-> v !! i = Some t.
Proof.
  intros Hnd. unfold make_token_to_index.
  rewrite lookup_dict by (now rewrite imap_keys_tokens).
  rewrite elem_of_lookup_imap. split.
  - intros (j & t' & [= -> ->] & Hj). exact Hj.
  - intros Hi. eauto.
Qed.

Lemma lookup_index_to_token v i : make_index_to_token v !! i = v !! i.
Proof.
  unfold make_index_to_token.
  assert (Hiff : forall t, dict (imap (fun i t => (i, t)) v) !! i = Some t <->
                           v !! i = Some t).
  { intros t. rewrite lookup_dict by (rewrite imap_keys_indices; apply NoDup_seq).
    rewrite elem_of_lookup_imap. split.
    - intros (j & t' & [= -> ->] & Hj). exact Hj.
    - intros Hi. eauto. }
  apply option_eq. exact Hiff.
Qed.

(** Encoding returns exactly when every token is in the vocabulary, and
    what it returns decodes to the tokens. *)
Lemma encode_spec v tokens :
  NoDup v ->
  (is_Some (encode (make_token_to_index v) tokens) <-> forall t, t ∈ tokens -> t ∈ v) /\
  (forall X, encode (make_token_to_index v) tokens = Some X ->
     decode (make_index_to_token v) X = Some tokens /\
     length X = length tokens /\
     Forall (fun i => (i < length v)%nat) X).
Proof.
  intros Hnd. split.
  - unfold encode. rewrite mapM_is_Some, Forall_forall. split.
    + intros Hall t Ht. destruct (Hall t Ht) as [i Hi].
      apply lookup_token_to_index in Hi; [|exact Hnd].
      apply list_elem_of_lookup. eauto.
    + intros Hall t Ht. apply Hall, list_elem_of_lookup in Ht as [i Hi].
      exists i. now apply lookup_token_to_index.
  - intros X HX. unfold encode in HX. apply mapM_Some in HX.
    assert (HX' : Forall2 (fun t i => v !! i = Some t) tokens X).
    { eapply Forall2_impl; [exact HX|]. intros t i Hi.
      now apply lookup_token_to_index in Hi. }
    split; [|split].
    + unfold decode. apply mapM_Some. apply Forall2_flip.
      eapply Forall2_impl; [exact HX'|]. intros t i Hi. simpl.
      now rewrite lookup_index_to_token.
    + symmetry. eapply Forall2_length. exact HX.
    + clear HX. induction HX' as [|t i ts X Hi _ IH]; constructor; [|exact IH].
      now apply lookup_lt_Some in Hi.
Qed.

(** The vocabulary that a turn of the loop works with. *)
Lemma load_phase_Some self phase tokens self' :
  let v := sorted_set (match vocab self with None => tokens | Some v => v end) in
  load_phase self phase tokens = Some self' <->
  exists X, encode (make_token_to_index v) tokens = Some X /\
    self' = mkPTB (reverse_target self) (Some v) (make_token_to_index v)
                  (make_index_to_token v)
                  (<[phase := (X, target (reverse_target self) X)]> (data_dict self)).
Proof.
  intros v. unfold load_phase. fold v.
  destruct (encode (make_token_to_index v) tokens) as [X|]; simpl.
  - split; [intros [= <-]; eauto|]. intros (X' & [= <-] & ->). reflexivity.
  - split; [discriminate|]. intros (X' & HX & _). discriminate.
Qed.

Lemma encode_train_returns tokens :
  is_Some (encode (make_token_to_index (sorted_set tokens)) tokens).
Proof.
  destruct (sorted_set_spec tokens) as (_ & Hnd & Hin).
  apply (encode_spec _ _ Hnd). intros t Ht. now apply Hin.
Qed.

(** X11. [load_data] returns exactly when every character of the test file
    and of the valid file occurs in the train file: the vocabulary is made
    from the train file alone, and a character outside it is a [KeyError]. *)
Theorem load_data_returns_iff self train test valid :
  is_Some (load_data self train test valid) <->
  (forall c, c ∈ test -> c ∈ train) /\ (forall c, c ∈ valid -> c ∈ train).
Proof.
  destruct (sorted_set_spec train) as (_ & Hnd & Hin).
  destruct (encode_train_returns train) as [Xtr Htr].
  unfold load_data.
  set (self0 := mkPTB _ None _ _ ∅).
  destruct (load_phase self0 "train" train) as [self1|] eqn:H1; simpl.
  2:{ exfalso. assert (Hs : is_Some (load_phase self0 "train" train))
        by (eexists; apply load_phase_Some; simpl; eauto).
      rewrite H1 in Hs. now destruct Hs. }
  apply load_phase_Some in H1 as (X1 & _ & ->). simpl in *.
  destruct (load_phase _ "test" test) as [self2|] eqn:H2; simpl.
  - apply load_phase_Some in H2 as (X2 & HX2 & ->). simpl in *.
    rewrite sorted_set_fixed in HX2.
    assert (Htest : forall c, c ∈ test -> c ∈ train).
    { intros c Hc. apply Hin. apply (encode_spec _ test Hnd); [eauto|exact Hc]. }
    destruct (load_phase _ "valid" valid) as [self3|] eqn:H3.
    + apply load_phase_Some in H3 as (X3 & HX3 & ->). simpl in *.
      rewrite !sorted_set_fixed in HX3.
      split; [intros _|eauto]. split; [exact Htest|].
      intros c Hc. apply Hin. apply (encode_spec _ valid Hnd); [eauto|exact Hc].
    + split; [intros [? ?]; discriminate|]. intros [_ Hvalid]. exfalso.
      assert (Hs : is_Some (encode (make_token_to_index (sorted_set train)) valid))
        by (apply (encode_spec _ _ Hnd); intros c Hc; now apply Hin, Hvalid).
      destruct Hs as [X3 HX3].
      assert (Hs : is_Some (load_phase
                 (mkPTB (reverse_target self)
                    (Some (sorted_set (sorted_set train)))
                    (make_token_to_index (sorted_set (sorted_set train)))
                    (make_index_to_token (sorted_set (sorted_set train)))
                    (<["test" := (X2, target (reverse_target self) X2)]>
                       (<["train" := (X1, target (reverse_target self) X1)]> ∅)))
                 "valid" valid)).
      { eexists. apply load_phase_Some. simpl. rewrite !sorted_set_fixed. eauto. }
      rewrite H3 in Hs. now destruct Hs.
  - split; [intros [? ?]; discriminate|]. intros [Htest _]. exfalso.
    assert (Hs : is_Some (encode (make_token_to_index (sorted_set train)) test))
      by (apply (encode_spec _ _ Hnd); intros c Hc; now apply Hin, Htest).
    destruct Hs as [X2 HX2].
    assert (Hs : is_Some (load_phase
               (mkPTB (reverse_target self) (Some (sorted_set train))
                  (make_token_to_index (sorted_set train))
                  (make_index_to_token (sorted_set train))
                  (<["train" := (X1, target (reverse_target self) X1)]> ∅))
               "test" test)).
    { eexists. apply load_phase_Some. simpl. rewrite !sorted_set_fixed. eauto. }
    rewrite H2 in Hs. now destruct Hs.
Qed.

(** X12. When [load_data] returns, the vocabulary is the characters of the
    train file, each once and in increasing order; the two dictionaries are
    inverse to each other; and the input of each of the three phases decodes,
    index by index, to the text of its file. *)
Theorem load_data_round_trip self train test valid self' :
  load_data self train test valid = Some self' ->
  (exists v, vocab self' = Some v /\ Sorted char_le v /\ NoDup v /\
             (forall c, c ∈ v <-> c ∈ train)) /\
  (forall c i, token_to_index self' !! c = Some i <-> index_to_token self' !! i = Some c) /\
  exists Xtrain Xtest Xvalid,
    data_dict self' !! "train" = Some (Xtrain, target (reverse_target self) Xtrain) /\
    data_dict self' !! "test" = Some (Xtest, target (reverse_target self) Xtest) /\
    data_dict self' !! "valid" = Some (Xvalid, target (reverse_target self) Xvalid) /\
    decode (index_to_token self') Xtrain = Some train /\
    decode (index_to_token self') Xtest = Some test /\
    decode (index_to_token self') Xvalid = Some valid.
Proof.
  destruct (sorted_set_spec train) as (Hs & Hnd & Hin).
  unfold load_data. set (self0 := mkPTB _ None _ _ ∅). intros Hload.
  destruct (load_phase self0 "train" train) as [self1|] eqn:H1; [|discriminate].
  apply load_phase_Some in H1 as (X1 & HX1 & ->). simpl in *.
  destruct (load_phase _ "test" test) as [self2|] eqn:H2; [|discriminate].
  apply load_phase_Some in H2 as (X2 & HX2 & ->). simpl in *.
  apply load_phase_Some in Hload as (X3 & HX3 & ->). simpl in *.
  rewrite !sorted_set_fixed in *.
  split; [exists (sorted_set train); auto|]. split.
  - intros c i. rewrite lookup_index_to_token. now apply lookup_token_to_index.
  - exists X1, X2, X3.
    split; [now rewrite !lookup_insert_ne, lookup_insert_eq by discriminate|].
    split; [now rewrite lookup_insert_ne, lookup_insert_eq by discriminate|].
    split; [now rewrite lookup_insert_eq|].
    split; [|split]; now apply (encode_spec _ _ Hnd).
Qed.

(** X13. The target of a phase has the length of its input; with
    [reverse_target] it is the input itself, and without it the input
    turned by one place: each target is the next input, and the last target
    is the first input. *)
Theorem target_turns_input reverse_target X :
  length (target reverse_target X) = length X /\
  (reverse_target = true -> target reverse_target X = X) /\
  (reverse_target = false ->
   forall i : nat, (i < length X)%nat ->
     target reverse_target X !! i = X !! ((i + 1) mod length X)%nat).
Proof.
  unfold target. destruct reverse_target.
  - split; [reflexivity|]. split; [reflexivity|discriminate].
  - split; [|split; [discriminate|]].
    + rewrite length_app, length_drop, length_take. lia.
    + intros _ i Hi.
      destruct (decide (i + 1 < length X)%nat) as [Hlt|Hge].
      * rewrite lookup_app_l by (rewrite length_drop; lia).
        rewrite lookup_drop, Nat.mod_small by lia. f_equal. lia.
      * assert (Hlast : (i + 1 = length X)%nat) by lia.
        rewrite lookup_app_r by (rewrite length_drop; lia).
        rewrite length_drop, Hlast, Nat.Div0.mod_same.
        replace (i - (length X - 1))%nat with 0%nat by lia.
        apply lookup_take_lt. lia.
Qed.

End DataSetProperties.

Section TemplateProperties.

(** X14. The template passes exactly when the executor returns, for each
    value that has an expected value at its position, a result equal to it;
    values and expected values beyond the shorter of the two lists are not
    looked at. *)
Theorem template_passes_iff const_executor values expected_values :
  template_one_placeholder const_executor values expected_values = Some tt <->
  forall (i : nat) value expected_value,
    values !! i = Some value -> expected_values !! i = Some expected_value ->
    (const_executor value == expected_value)%Q.
Proof.
  revert expected_values.
  induction values as [|v values IH]; intros [|e expected_values]; simpl.
  - split; [intros _ i ? ? H; discriminate|reflexivity].
  - split; [intros _ i ? ? H; discriminate|reflexivity].
  - split; [intros _ i ? ? _ H; discriminate|reflexivity].
  - destruct (Qeq_bool (const_executor v) e) eqn:Heq.
    + apply Qeq_bool_iff in Heq. rewrite IH. split.
      * intros Hall [|i] value expected Hv He; simpl in *.
        -- now injection Hv as <-; injection He as <-.
        -- now apply (Hall i).
      * intros Hall i value expected Hv He. now apply (Hall (S i)).
    + split; [discriminate|]. intros Hall. exfalso.
      apply Qeq_bool_neq in Heq. apply Heq. now apply (Hall 0%nat).
Qed.

End TemplateProperties.

(** * The further properties at concrete inputs *)

Section ReferenceMore.

Lemma reference_bind_keeps conv :
  bind_ptr_keeps_length (reference_runtime_with conv) /\
  kernel_bind_keeps_class (reference_runtime_with conv) /\
  manager_hooks_keep_scales_nonzero (reference_runtime_with conv).
Proof.
  split; [|split; [|repeat split; auto]].
  - intros ps. simpl. unfold reference_bind_ptr. apply length_map.
  - intros k es. reflexivity.
Qed.

Lemma sample_scales_nonzero alloc : scales_nonzero (sample_manager alloc).
Proof.
  intros id. simpl.
  destruct (decide (id = 0%nat)) as [->|H0];
    [rewrite lookup_total_insert_eq; vm_compute; discriminate|].
  rewrite lookup_total_insert_ne by congruence.
  destruct (decide (id = 1%nat)) as [->|H1];
    [rewrite lookup_total_insert_eq; vm_compute; discriminate|].
  rewrite lookup_total_insert_ne by congruence.
  destruct (decide (id = 2%nat)) as [->|H2];
    [rewrite lookup_total_insert_eq; vm_compute; discriminate|].
  rewrite lookup_total_insert_ne by congruence.
  rewrite lookup_total_empty. vm_compute. discriminate.
Qed.

End ReferenceMore.

Lemma clip_idempotent_witness :
  clip 32767 (-32768) (clip 32767 (-32768) (NdArray [50000; - (3 # 2); -70000]%Q)) =
  clip 32767 (-32768) (NdArray [50000; - (3 # 2); -70000]%Q).
Proof. apply (clip_idempotent 32767 (-32768)). lia. Defined.

(** A write of 50000 at scale 1 into 16-bit storage reports 32767. *)
Lemma overflowing_write_reports_bound_witness :
  new_events (sample_state true)
    (final (@setitem reference_runtime sample_tensor KeyAll (Scalar 50000) (sample_state true)))
  = [EvEntryBefore 0 (Scalar 50000); EvStore 0; EvEntryAfter 0 (2 ^ 15 - 1) 0].
Proof.
  apply (proj1 (@overflowing_write_reports_bound reference_runtime sample_tensor KeyAll
                  50000%Q (sample_state true) _ eq_refl)).
  vm_compute. reflexivity.
Defined.

Lemma empty_array_write_raises_witness :
  exists e st',
    @setitem reference_runtime sample_tensor KeyAll (NdArray []) (sample_state true)
    = Raise e st' /\
    (new_events (sample_state true) st' = [EvEntryBefore 0 (NdArray [])] \/
     new_events (sample_state true) st' = [EvEntryBefore 0 (NdArray []); EvStore 0]).
Proof.
  apply (@empty_array_write_raises reference_runtime sample_tensor KeyAll (sample_state true)).
  vm_compute. discriminate.
Defined.

(** The parameters of the sample element-wise kernel once bound. *)
Lemma bind_scales_idempotent_witness :
  @bind_scales (scale_info_from 0 (params sample_ew_kernel))
     [PFloat 1; POther 7; PFloat (1 # 2); PFlexPtr (mkFlexPtrDescription 1); PFloat 4]
     (sample_state true)
  = Ok [PFloat 1; POther 7; PFloat (1 # 2); PFlexPtr (mkFlexPtrDescription 1); PFloat 4]
       (sample_state true).
Proof.
  apply (bind_scales_idempotent (params sample_ew_kernel) (params sample_ew_kernel)
           (sample_state true) _ (sample_state true)).
  vm_compute. reflexivity.
Defined.

Lemma bound_params_hold_no_descriptor_witness :
  (forall (i : nat) d,
     [PFloat 1; POther 7; PFloat (1 # 2); PFlexPtr (mkFlexPtrDescription 1); PFloat 4] !! i
     <> Some (PFlexScale d)) /\
  scale_info_from 0
    [PFloat 1; POther 7; PFloat (1 # 2); PFlexPtr (mkFlexPtrDescription 1); PFloat 4] = [] /\
  ew_output_ids
    [PFloat 1; POther 7; PFloat (1 # 2); PFlexPtr (mkFlexPtrDescription 1); PFloat 4]
    (sample_state true) = [].
Proof.
  apply (bound_params_hold_no_descriptor (params sample_ew_kernel) (sample_state true)
           _ (sample_state true)).
  vm_compute. reflexivity.
Defined.

(** Three calls of the compiled sample group. *)
Lemma compiled_group_can_be_called_witness :
  exists g' st',
    @calls reference_runtime 3 sample_compiled_group (sample_state true) = Ok g' st' /\
    autoflex_count (flex_manager st')
      = autoflex_count (flex_manager (sample_state true)) + 2 * Z.of_nat 3 /\
    group_name g' = group_name sample_compiled_group /\
    group_output_flex_ids g' = group_output_flex_ids sample_compiled_group /\
    length (kernels g') = length (kernels sample_compiled_group).
Proof.
  apply (@compiled_group_can_be_called reference_runtime
           (proj2 (proj2 (reference_hooks to_nearest)))
           (proj2 (proj2 (reference_bind_keeps to_nearest)))
           (proj1 (proj2 (reference_hooks to_nearest)))
           (proj1 (reference_bind_keeps to_nearest))
           (proj1 (proj2 (reference_bind_keeps to_nearest)))
           sample_group (sample_state true) sample_compiled_group (sample_state true)).
  - vm_compute. reflexivity.
  - reflexivity.
  - apply sample_scales_nonzero.
Defined.

Lemma device_tensor_name_injective_in_shape_witness : [2; 3]%nat = [2; 3]%nat.
Proof.
  apply (device_tensor_name_injective_in_shape "x" [2; 3]%nat [2; 3]%nat). reflexivity.
Defined.

Example device_tensor_name_sample :
  device_tensor_name "x" [2; 3]%nat = "v_x_2_3"%string /\
  device_tensor_name "x" [] = "v_x_"%string /\
  device_tensor_name "x_2" [3]%nat = device_tensor_name "x" [2; 3]%nat.
Proof. repeat split. Qed.

Lemma load_data_returns_iff_witness :
  is_Some (load_data (PTB_init false) (list_ascii_of_string "abcab")
             (list_ascii_of_string "ba") (list_ascii_of_string "cc")) <->
  (forall c, c ∈ list_ascii_of_string "ba" -> c ∈ list_ascii_of_string "abcab") /\
  (forall c, c ∈ list_ascii_of_string "cc" -> c ∈ list_ascii_of_string "abcab").
Proof.
  exact (load_data_returns_iff (PTB_init false) (list_ascii_of_string "abcab")
           (list_ascii_of_string "ba") (list_ascii_of_string "cc")).
Defined.

(** A test file with a character that the train file lacks. *)
Example load_data_unseen_character :
  load_data (PTB_init false) (list_ascii_of_string "abcab")
    (list_ascii_of_string "bad") (list_ascii_of_string "cc") = None.
Proof. vm_compute. reflexivity. Qed.

Lemma load_data_round_trip_witness :
  (exists v, vocab sample_ptb = Some v /\ Sorted char_le v /\ NoDup v /\
             (forall c, c ∈ v <-> c ∈ list_ascii_of_string "abcab")) /\
  (forall c i, token_to_index sample_ptb !! c = Some i <->
               index_to_token sample_ptb !! i = Some c) /\
  exists Xtrain Xtest Xvalid,
    data_dict sample_ptb !! "train" = Some (Xtrain, target false Xtrain) /\
    data_dict sample_ptb !! "test" = Some (Xtest, target false Xtest) /\
    data_dict sample_ptb !! "valid" = Some (Xvalid, target false Xvalid) /\
    decode (index_to_token sample_ptb) Xtrain = Some (list_ascii_of_string "abcab") /\
    decode (index_to_token sample_ptb) Xtest = Some (list_ascii_of_string "ba") /\
    decode (index_to_token sample_ptb) Xvalid = Some (list_ascii_of_string "cc").
Proof.
  apply (load_data_round_trip (PTB_init false) (list_ascii_of_string "abcab")
           (list_ascii_of_string "ba") (list_ascii_of_string "cc") sample_ptb).
  vm_compute. reflexivity.
Defined.

Example sample_ptb_data :
  vocab sample_ptb = Some (list_ascii_of_string "abc") /\
  data_dict sample_ptb !! "train" = Some ([0; 1; 2; 0; 1]%nat, [1; 2; 0; 1; 0]%nat) /\
  data_dict sample_ptb !! "test" = Some ([1; 0]%nat, [0; 1]%nat).
Proof. vm_compute. repeat split. Qed.

Lemma target_turns_input_witness :
  length (target false [4; 5; 6]%nat) = length [4; 5; 6]%nat /\
  (false = true -> target false [4; 5; 6]%nat = [4; 5; 6]%nat) /\
  (false = false ->
   forall i : nat, (i < length [4; 5; 6]%nat)%nat ->
     target false [4; 5; 6]%nat !! i = [4; 5; 6]%nat !! ((i + 1) mod length [4; 5; 6]%nat)%nat).
Proof. exact (target_turns_input false [4; 5; 6]%nat). Defined.

Lemma template_passes_iff_witness :
  template_one_placeholder (fun x => x * x)%Q [2; 3; 5]%Q [4; 9]%Q = Some tt <->
  forall (i : nat) value expected_value,
    [2; 3; 5]%Q !! i = Some value -> [4; 9]%Q !! i = Some expected_value ->
    (value * value == expected_value)%Q.
Proof. exact (template_passes_iff (fun x => x * x)%Q [2; 3; 5]%Q [4; 9]%Q). Defined.

Example template_ignores_unmatched_values :
  template_one_placeholder (fun x => x * x)%Q [2; 3; 5]%Q [4; 9]%Q = Some tt /\
  template_one_placeholder (fun x => x * x)%Q [2; 3; 5]%Q [] = Some tt /\
  template_one_placeholder (fun x => x * x)%Q [2; 3; 5]%Q [4; 10; 25]%Q = None.
Proof. repeat split. Qed.

Section ReportedMagnitude.
Context {RT : FlexRuntime}.

Lemma fold_max_ge (l : list Q) : forall x,
  let m := fold_left (fun m y => if Qltb m y then y else m) l x in
  (x <= m)%Q /\ forall y, In y l -> (y <= m)%Q.
Proof.
  induction l as [|z l IH]; intros x; simpl.
  - split; [lra|intros y []].
  - destruct (IH (if Qltb x z then z else x)) as [Hx Hl].
    destruct (Qltb_cases x z) as [[E H]|[E H]]; rewrite E in *.
    + split; [lra|]. intros y [<-|Hy]; [exact Hx|now apply Hl].
    + split; [exact Hx|]. intros y [<-|Hy]; [lra|now apply Hl].
Qed.

Lemma amax_ge a m : amax a = Some m -> forall y, In y a -> (y <= m)%Q.
Proof.
  destruct a as [|x l]; simpl; [discriminate|]. intros [= <-] y [<-|Hy].
  - exact (proj1 (fold_max_ge l x)).
  - exact (proj2 (fold_max_ge l x) y Hy).
Qed.

(** X16. The magnitude that a write reports covers what it stores: every
    element of the clipped value handed to the base store has an absolute
    value below the reported integer plus one, and some element has an
    absolute value that is at least the reported integer. *)
Theorem reported_magnitude_covers_value t key value st st' id m c :
  setitem t key value st = Ok tt st' ->
  In (EvEntryAfter id m c) (new_events st st') ->
  (forall q, In q (elems (clipped t value st)) -> (Qabs q < inject_Z m + 1)%Q) /\
  (exists q, In q (elems (clipped t value st)) /\ (inject_Z m <= Qabs q)%Q).
Proof.
  intros Hset Hin.
  destruct (setitem_ok_events t key value st st' Hset) as (a & Ha & Hev).
  rewrite Hev in Hin. simpl in Hin.
  destruct Hin as [Hin|[Hin|[Hin|[]]]]; try discriminate.
  injection Hin as _ <- _.
  assert (Hnonneg : (0 <= a)%Q /\
                    (forall q, In q (elems (clipped t value st)) -> (Qabs q <= a)%Q) /\
                    (exists q, In q (elems (clipped t value st)) /\ a = Qabs q)).
  { destruct (clipped t value st) as [q0|l]; simpl in *.
    - injection Ha as <-. split; [apply Qabs_nonneg|]. split.
      + intros q [<-|[]]. lra.
      + exists q0. auto.
    - pose proof (amax_In _ _ Ha) as Hmem.
      apply in_map_iff in Hmem as (q0 & <- & Hq0).
      split; [apply Qabs_nonneg|]. split.
      + intros q Hq. apply (amax_ge _ _ Ha). now apply in_map.
      + exists q0. auto. }
  destruct Hnonneg as (H0 & Hall & q0 & Hq0 & ->).
  rewrite (py_int_nonneg _ H0). split.
  - intros q Hq. specialize (Hall q Hq).
    pose proof (Qlt_floor (Qabs q0)) as Hf. rewrite inject_Z_plus in Hf.
    change (inject_Z 1) with 1%Q in Hf. lra.
  - exists q0. split; [exact Hq0|apply Qfloor_le].
Qed.

End ReportedMagnitude.

Section IndexRange.

Lemma vocabulary_at_most_256 (v : list ascii) : NoDup v -> (length v <= 256)%nat.
Proof.
  intros Hnd.
  assert (Hinj : Inj eq eq nat_of_ascii).
  { intros a b Hab. rewrite <- (ascii_nat_embedding a), <- (ascii_nat_embedding b).
    now rewrite Hab. }
  pose proof (NoDup_fmap_2 nat_of_ascii v Hnd) as Hmap.
  assert (Hle : (length (nat_of_ascii <$> v) <= length (seq 0 256))%nat).
  { apply NoDup_incl_length; [now apply NoDup_ListNoDup|].
    intros n Hn. apply list_elem_of_In, list_elem_of_fmap in Hn as (a & -> & _).
    apply in_seq. pose proof (nat_ascii_bounded a). lia. }
  now rewrite length_fmap, length_seq in Hle.
Qed.

(** X17. The indices of a phase are below the size of the vocabulary, which
    is at most 256: they are unchanged by the conversion to [uint32]. *)
Theorem indices_fit_uint32 self train test valid self' phase X y :
  load_data self train test valid = Some self' ->
  data_dict self' !! phase = Some (X, y) ->
  exists v, vocab self' = Some v /\ (length v <= 256)%nat /\
    Forall (fun i => (i < length v)%nat) X /\
    Forall (fun i => (i < length v)%nat) y.
Proof.
  destruct (sorted_set_spec train) as (Hs & Hnd & Hin).
  unfold load_data. set (self0 := mkPTB _ None _ _ ∅). intros Hload Hphase.
  destruct (load_phase self0 "train" train) as [self1|] eqn:H1; [|discriminate].
  apply load_phase_Some in H1 as (X1 & HX1 & ->). simpl in *.
  destruct (load_phase _ "test" test) as [self2|] eqn:H2; [|discriminate].
  apply load_phase_Some in H2 as (X2 & HX2 & ->). simpl in *.
  apply load_phase_Some in Hload as (X3 & HX3 & ->). simpl in *.
  rewrite !sorted_set_fixed in *.
  exists (sorted_set train). split; [reflexivity|].
  split; [now apply vocabulary_at_most_256|].
  assert (Htarget : forall r Z, Forall (fun i => (i < length (sorted_set train))%nat) Z ->
                    Forall (fun i => (i < length (sorted_set train))%nat) (target r Z)).
  { intros r Z HZ. unfold target. destruct r; [exact HZ|].
    apply Forall_app. split; [now apply Forall_drop|now apply Forall_take]. }
  apply lookup_insert_Some in Hphase as [[_ [= <- <-]]|[_ Hphase]].
  { split; [|apply Htarget]; now apply (encode_spec _ valid Hnd). }
  apply lookup_insert_Some in Hphase as [[_ [= <- <-]]|[_ Hphase]].
  { split; [|apply Htarget]; now apply (encode_spec _ test Hnd). }
  apply lookup_insert_Some in Hphase as [[_ [= <- <-]]|[_ Hphase]].
  { split; [|apply Htarget]; now apply (encode_spec _ train Hnd). }
  discriminate.
Qed.

End IndexRange.

(** A write of an array with two values out of range. *)
Lemma reported_magnitude_covers_value_witness :
  (forall q, In q (elems (@clipped reference_runtime sample_tensor
                            (NdArray [50000; - (3 # 2); -70000]%Q) (sample_state true))) ->
             (Qabs q < inject_Z 32768 + 1)%Q) /\
  (exists q, In q (elems (@clipped reference_runtime sample_tensor
                            (NdArray [50000; - (3 # 2); -70000]%Q) (sample_state true))) /\
             (inject_Z 32768 <= Qabs q)%Q).
Proof.
  apply (@reported_magnitude_covers_value reference_runtime sample_tensor KeyAll
           (NdArray [50000; - (3 # 2); -70000]%Q) (sample_state true) _ 0%nat 32768 0 eq_refl).
  vm_compute. right; right; left; reflexivity.
Defined.

Lemma indices_fit_uint32_witness :
  exists v, vocab sample_ptb = Some v /\ (length v <= 256)%nat /\
    Forall (fun i => (i < length v)%nat) [0; 1; 2; 0; 1]%nat /\
    Forall (fun i => (i < length v)%nat) [1; 2; 0; 1; 0]%nat.
Proof.
  apply (indices_fit_uint32 (PTB_init false) (list_ascii_of_string "abcab")
           (list_ascii_of_string "ba") (list_ascii_of_string "cc") sample_ptb "train").
  - vm_compute. reflexivity.
  - vm_compute. reflexivity.
Defined.
